(** * Argubot simulation and evaluation: a shallow embedding

    The development follows the Python sources file by file:
    - [dialogue.py]  : [Dialogue], [format_as_messages]
    - [eval.py]      : [Eval], [eval_by_participant]
    - [simulate.py]  : [simulated_dialogue]
    - [argubots.py]  : [KialoAgent], [AkikiAgent]

    Python exceptions are values of [exn]; a function that may raise
    returns a [result].  Dictionaries used as maps are [gmap]s, Python
    [int]s are [Z], strings are [string]. *)

From stdpp Require Import gmap strings list fin_maps pretty.
From Stdlib Require Import ZArith.
From Stdlib Require QArith.

(** ** Exceptions and results *)

Inductive exn : Type :=
  | ValueError
  | KeyError (key : string)
  | IndexError
  | AssertionError
  | AttributeError
  | TypeError
  | ZeroDivisionError
  | OverflowError
  | MemoryError
  | OtherError (what : string).

Inductive result (A : Type) : Type :=
  | Ok (a : A)
  | Raise (e : exn).
Arguments Ok {A} a.
Arguments Raise {A} e.

#[global] Instance exn_eq_dec : EqDecision exn.
Proof. solve_decision. Defined.

#[global] Instance result_ret : MRet result := @Ok.
#[global] Instance result_bind : MBind result := λ A B f m,
  match m with
  | Ok a => f a
  | Raise e => Raise e
  end.
#[global] Instance result_fmap : FMap result := λ A B f m,
  match m with
  | Ok a => Ok (f a)
  | Raise e => Raise e
  end.

(** [try: m except ...: h]: run [m]; when it raises an exception that the
    clause names ([caught]), run the handler [h] instead. *)
Definition try_except {A} (m : result A) (caught : exn → bool) (h : result A)
  : result A :=
  match m with
  | Ok a => Ok a
  | Raise e => if caught e then h else Raise e
  end.

(** ** Python string helpers *)

(** The line feed and the double quote, written by character code. *)
Definition nl : string := String (Ascii.ascii_of_nat 10) EmptyString.
Definition dquote : string := String (Ascii.ascii_of_nat 34) EmptyString.
Definition triple_quote : string := dquote +:+ dquote +:+ dquote.

(** [sep.join(l)] *)
Definition join (sep : string) (l : list string) : string := String.concat sep l.

(** [s * n] on strings *)
Fixpoint str_repeat (s : string) (n : nat) : string :=
  match n with
  | O => EmptyString
  | S n' => s +:+ str_repeat s n'
  end.

(** [random.choice(seq)]: the draw [r] stands for the generator's output;
    an empty sequence raises [IndexError]. *)
Definition random_choice {A} (r : nat) (seq : list A) : result A :=
  match seq with
  | [] => Raise IndexError
  | _ :: _ =>
      match seq !! (r mod length seq)%nat with
      | Some x => Ok x
      | None => Raise IndexError
      end
  end.

(** [seq[-1]] *)
Definition last_item {A} (seq : list A) : result A :=
  match last seq with
  | Some x => Ok x
  | None => Raise IndexError
  end.

(** * dialogue.py *)

Module Dialogue.

(** A turn is the dict [{'speaker': ..., 'content': ...}] that
    [Dialogue.add] builds; these are its only two keys. *)
Record Turn : Type := mkTurn { speaker : string; content : string }.

#[global] Instance Turn_eq_dec : EqDecision Turn.
Proof. solve_decision. Defined.

(** [turn[key]] *)
Definition getitem (turn : Turn) (key : string) : result string :=
  if decide (key = "speaker") then Ok (speaker turn)
  else if decide (key = "content") then Ok (content turn)
  else Raise (KeyError key).

Definition Dialogue : Type := list Turn.

Definition add (self : Dialogue) (spk cont : string) : Dialogue :=
  self ++ [mkTurn spk cont].

Definition rename (self : Dialogue) (old new : string) : Dialogue :=
  fold_left
    (λ d turn, add d (if decide (speaker turn = old) then new else speaker turn)
                     (content turn))
    self [].

(** [script]: the dialogue as a play script between triple quotes. *)
Definition script (self : Dialogue) : string :=
  triple_quote +:+ nl
  +:+ join (nl +:+ nl) ((λ turn, speaker turn +:+ ": " +:+ content turn) <$> self)
  +:+ nl +:+ triple_quote.

(** The set comprehension [{turn['speaker'] for turn in d}]. *)
Definition speakers_of (d : Dialogue) : gset string :=
  list_to_set (speaker <$> d).

(** ** Messages for the chat completion interface *)

Record Message : Type := mkMessage {
  role : string;
  msg_content : string;
  name : option string
}.

#[global] Instance Message_eq_dec : EqDecision Message.
Proof. solve_decision. Defined.

(** Keyword arguments of [format_as_messages]; [None] is Python's [None]. *)
Record Kwargs : Type := mkKwargs {
  system : option string;
  system_last : option string;
  speaker_names : option bool;
  compress : option bool;
  tool : option string;
  tool_name : option string
}.

Definition no_kwargs : Kwargs := mkKwargs None None None None None None.

(** One iteration of [for turn in d: openai_messages.append({...})].
    The dict display evaluates the role first, then the content; the
    marked content reads [turn['role']] and [turn['content']]. *)
Definition turn_message (spk : string) (names : bool) (turn : Turn)
  : result Message :=
  s ← getitem turn "speaker";
  let r := if decide (s = spk) then "assistant" else "user" in
  c ← (if names
       then who ← getitem turn "role";
            c ← getitem turn "content";
            mret (who +:+ ": " +:+ c)
       else getitem turn "content");
  mret (mkMessage r c None).

Fixpoint turn_messages (spk : string) (names : bool) (d : Dialogue)
  : result (list Message) :=
  match d with
  | [] => mret []
  | turn :: d' =>
      m ← turn_message spk names turn;
      ms ← turn_messages spk names d';
      mret (m :: ms)
  end.

Definition is_user (m : Message) : bool := bool_decide (role m = "user").

(** The inner loop
    [while j < len(openai_messages) and openai_messages[j]['role'] == 'user'].
    [None] means the fuel ran out before the loop condition failed. *)
Fixpoint scan_run (fuel : nat) (msgs : list Message) (j : nat) : option nat :=
  match msgs !! j with
  | None => Some j
  | Some m =>
      if is_user m then
        match fuel with
        | O => None
        | S fuel' => scan_run fuel' msgs (j + 1)
        end
      else Some j
  end.

(** The f-string that puts [compressed] on a line of its own between
    two lines of three double quotes. *)
Definition wrap (compressed : string) : string :=
  triple_quote +:+ nl +:+ compressed +:+ nl +:+ triple_quote.

(** [openai_messages[i:j]] *)
Definition slice {A} (i j : nat) (l : list A) : list A :=
  take (j - i) (drop i l).

(** [openai_messages[i:j] = new] *)
Definition slice_assign {A} (i j : nat) (new l : list A) : list A :=
  take i l ++ new ++ drop (Nat.max i j) l.

(** The outer loop [while i < len(openai_messages)]. *)
Fixpoint compress_loop (fuel : nat) (msgs : list Message) (i : nat)
  : option (list Message) :=
  match msgs !! i with
  | None => Some msgs
  | Some m =>
      match fuel with
      | O => None
      | S fuel' =>
          if is_user m then
            j ← scan_run (length msgs) msgs (i + 1);
            let compressed := join (nl +:+ nl) (msg_content <$> slice i j msgs) in
            let msgs' :=
              slice_assign i j [mkMessage "user" (wrap compressed) None] msgs in
            compress_loop fuel' msgs' (i + 1)
          else compress_loop fuel' msgs (i + 1)
      end
  end.

Definition compress_pass (msgs : list Message) : option (list Message) :=
  compress_loop (length msgs) msgs 0.

(** [format_as_messages(d, speaker, **kw)].  The outer [option] is [None]
    only if a loop of the compression pass ran out of fuel. *)
Definition format_as_messages (d : Dialogue) (spk : string) (kw : Kwargs)
  : option (result (list Message)) :=
  let speakers := speakers_of d ∪ {[spk]} in
  let names := default (bool_decide (2 < size speakers)) (speaker_names kw) in
  let compr := default (bool_decide (2 < size speakers)) (compress kw) in
  let pre := match system kw with
             | Some s => [mkMessage "system" s None]
             | None => []
             end in
  match turn_messages spk names d with
  | Raise e => Some (Raise e)
  | Ok body =>
      let post := match system_last kw with
                  | Some s => [mkMessage "system" s None]
                  | None => []
                  end in
      let tl := match tool kw with
                | Some t => [mkMessage "tool" t (tool_name kw)]
                | None => []
                end in
      let openai_messages := pre ++ body ++ post ++ tl in
      if compr then Ok <$> compress_pass openai_messages
      else Some (Ok openai_messages)
  end.

(** ** The operators of [Dialogue] *)

(** The right operand of [+]: a Dialogue, or a value of another type. *)
Inductive Operand : Type :=
  | ADialogue (d : Dialogue)
  | NotADialogue.

(** [Dialogue.__add__(other)] *)
Definition __add__ (self : Dialogue) (other : Operand) : result Dialogue :=
  match other with
  | ADialogue d => Ok (self ++ d)
  | NotADialogue => Raise ValueError
  end.

(** [sys.maxsize], the largest value of the index type [Py_ssize_t], on
    a 64-bit build. *)
Definition maxsize : Z := (2 ^ 63 - 1)%Z.

(** [tuple.__mul__(other)] for an [int]: the count is converted to the
    index type first, which raises [OverflowError] outside its range; a
    count below one, or an empty tuple, gives the empty tuple; a result
    longer than [sys.maxsize] is refused with [MemoryError]; otherwise
    the items are copied [other] times, one copy after the other (the
    machine's memory is taken to suffice for a result of that size). *)
Definition tuple_mul {A} (self : list A) (other : Z) : result (list A) :=
  if bool_decide (other < - maxsize - 1 ∨ maxsize < other)%Z then
    Raise OverflowError
  else if bool_decide (length self = 0%nat ∨ (other ≤ 0)%Z) then Ok []
  else if bool_decide (maxsize `div` other < Z.of_nat (length self))%Z then
    Raise MemoryError
  else Ok (mjoin (replicate (Z.to_nat other) self)).

(** [Dialogue.__mul__(other)] and [Dialogue.__rmul__(other)]: both hand
    the count to the tuple's [__mul__]. *)
Definition __mul__ (self : Dialogue) (other : Z) : result Dialogue :=
  tuple_mul self other.

Definition __rmul__ (self : Dialogue) (other : Z) : result Dialogue :=
  tuple_mul self other.

(** The argument of [[]]: an integer, or a slice [start:stop] whose
    bounds may be omitted (slices with a step are not modelled). *)
Inductive Subscript : Type :=
  | At (i : Z)
  | Slice (start stop : option Z).

(** What [[]] returns: a single turn, or a Dialogue. *)
Inductive Subscripted : Type :=
  | ATurn (turn : Turn)
  | ASlice (d : Dialogue).

(** A slice bound, as the tuple normalises it against the length [len]:
    a negative bound counts from the end, and all bounds are clipped to
    the range from 0 to [len]. *)
Definition slice_bound (len : Z) (bound : option Z) (omitted : Z) : Z :=
  match bound with
  | None => omitted
  | Some b => if bool_decide (b < 0)%Z then Z.max (b + len) 0 else Z.min b len
  end.

(** [Dialogue.__getitem__(index)] *)
Definition __getitem__ (self : Dialogue) (index : Subscript)
  : result Subscripted :=
  let len := Z.of_nat (length self) in
  match index with
  | At i =>
      let j := if bool_decide (i < 0)%Z then (i + len)%Z else i in
      if bool_decide (0 ≤ j < len)%Z then
        match self !! Z.to_nat j with
        | Some turn => Ok (ATurn turn)
        | None => Raise IndexError
        end
      else Raise IndexError
  | Slice start stop =>
      let lo := slice_bound len start 0 in
      let hi := slice_bound len stop len in
      Ok (ASlice (take (Z.to_nat hi - Z.to_nat lo) (drop (Z.to_nat lo) self)))
  end.

(** [Dialogue.__repr__] *)
Definition __repr__ (self : Dialogue) : string :=
  join nl ((λ turn, "(" +:+ speaker turn +:+ ") " +:+ content turn) <$> self).

End Dialogue.

(** * eval.py: the aggregator *)

Module Eval.

(** ** [collections.Counter] over criterion names *)

(** [c[k]]: a missing key reads as zero. *)
Definition counter_get (c : gmap string Z) (k : string) : Z :=
  default 0%Z (c !! k).

(** [Counter.__add__]: add the counts, keep only the positive ones. *)
Definition counter_add (a b : gmap string Z) : gmap string Z :=
  merge (λ x y,
    match x, y with
    | Some c, _ =>
        let newcount := (c + default 0 y)%Z in
        if bool_decide (0 < newcount)%Z then Some newcount else None
    | None, Some c => if bool_decide (0 < c)%Z then Some c else None
    | None, None => None
    end) a b.

(** [Counter._keep_positive] *)
Definition keep_positive (c : gmap string Z) : gmap string Z :=
  filter (λ kv, (0 < kv.2)%Z) c.

(** [Counter.__iadd__]: [self[elem] += count] for each item of [other],
    then [_keep_positive]. *)
Definition counter_iadd (a b : gmap string Z) : gmap string Z :=
  keep_positive
    (merge (λ x y,
       match y with
       | Some count => Some (default 0 x + count)%Z
       | None => x
       end) a b).

(** ** The class [Eval] *)

Definition Comment : Type := (string * string)%type.

Record Eval : Type := mkEval {
  comments : gmap string (list Comment);
  scores : gmap string Z;
  denoms : gmap string Z
}.

(** [defaultdict(list)] lookup *)
Definition comments_get (c : gmap string (list Comment)) (k : string)
  : list Comment :=
  default [] (c !! k).

(** The loop body [comments[key] += val] on a [defaultdict(list)]. *)
Definition extend_comments (acc : gmap string (list Comment))
    (item : string * list Comment) : gmap string (list Comment) :=
  <[item.1 := comments_get acc item.1 ++ item.2]> acc.

(** [Eval.__init__(comments, scores, denoms)]; [None] for an omitted
    [scores] or [denoms]. *)
Definition __init__ (cmts : gmap string (list Comment))
    (scs dns : option (gmap string Z)) : result Eval :=
  let self_scores := default ∅ scs in
  let self_denoms :=
    match dns with
    | None => (λ _, 1%Z) <$> self_scores
    | Some d => d
    end in
  if decide (dom self_scores ≠ dom self_denoms) then Raise ValueError
  else Ok (mkEval cmts self_scores self_denoms).

(** [Eval.__iadd__], the [+=] operator: no check after the update. *)
Definition __iadd__ (self other : Eval) : Eval :=
  mkEval
    (fold_left extend_comments (map_to_list (comments other)) (comments self))
    (counter_iadd (scores self) (scores other))
    (counter_iadd (denoms self) (denoms other)).

(** [Eval.__add__], the [+] operator: builds the sum through [__init__]. *)
Definition __add__ (self other : Eval) : result Eval :=
  let cmts :=
    fold_left extend_comments
      (map_to_list (comments self) ++ map_to_list (comments other)) ∅ in
  __init__ cmts
    (Some (counter_add (scores self) (scores other)))
    (Some (counter_add (denoms self) (denoms other))).

(** ** [Eval.mean]

    Python's true division of two [int]s yields a [float], and [sum]
    adds floats starting from the integer zero.  The number type and its
    operations are left abstract: [truediv] is [/] on a non-zero
    denominator, which gives no value when the quotient is too large for
    a float (Python raises [OverflowError] then), [fadd] is [+], [fzero]
    is [0].

    A [Counter] is a [dict] and iterates over its keys in the order in
    which they were inserted.  A [gmap] does not record that order, so
    [mean] takes it as the argument [keys]: the keys of [self.scores], as
    the loop [for k in self.scores] meets them. *)
Section Mean.
Context {F : Type}.
Variable truediv : Z → Z → option F.
Variable fadd : F → F → F.
Variable fzero : F.

(** [self.scores[k]/self.denoms[k]]: the division checks for a zero
    denominator first. *)
Definition quotient (self : Eval) (k : string) : result F :=
  let d := counter_get (denoms self) k in
  if decide (d = 0%Z) then Raise ZeroDivisionError
  else
    match truediv (counter_get (scores self) k) d with
    | Some q => Ok q
    | None => Raise OverflowError
    end.

(** The dict comprehension, one key after the other. *)
Fixpoint quotients (self : Eval) (keys : list string)
  : result (list (string * F)) :=
  match keys with
  | [] => mret []
  | k :: keys' =>
      q ← quotient self k;
      qs ← quotients self keys';
      mret ((k, q) :: qs)
  end.

(** [sum(m.values())]: from the left, in the order of the dict [m], which
    is the order of [keys]. *)
Definition fsum (values : list F) : F := fold_left fadd values fzero.

Definition mean (keys : list string) (self : Eval)
  : result (gmap string F) :=
  qs ← quotients self keys;
  let m : gmap string F := list_to_map qs in
  mret (<["TOTAL" := fsum qs.*2]> m).
End Mean.

(** ** Evals that the operations can produce *)

(** Built by [__init__] from any mappings, then merged by [+] and [+=]. *)
Inductive reachable : Eval → Prop :=
  | reach_init cmts scs dns e :
      __init__ cmts scs dns = Ok e → reachable e
  | reach_add e1 e2 e :
      reachable e1 → reachable e2 → __add__ e1 e2 = Ok e → reachable e
  | reach_iadd e1 e2 :
      reachable e1 → reachable e2 → reachable (__iadd__ e1 e2).

(** All recorded values are strictly positive. *)
Definition positive (c : gmap string Z) : Prop :=
  map_Forall (λ _ v, (0 < v)%Z) c.

Definition positive_opt (c : option (gmap string Z)) : Prop :=
  match c with
  | Some m => positive m
  | None => True
  end.

(** As [reachable], from strictly positive scores and denominators:
    what the rating questions (1 to 5, 1 to 10) produce. *)
Inductive reachable_pos : Eval → Prop :=
  | reach_pos_init cmts scs dns e :
      positive_opt scs → positive_opt dns →
      __init__ cmts scs dns = Ok e → reachable_pos e
  | reach_pos_add e1 e2 e :
      reachable_pos e1 → reachable_pos e2 → __add__ e1 e2 = Ok e →
      reachable_pos e
  | reach_pos_iadd e1 e2 :
      reachable_pos e1 → reachable_pos e2 → reachable_pos (__iadd__ e1 e2).

(** As [reachable], from any scores and from denominators that are
    omitted or strictly positive. *)
Inductive reachable_counted : Eval → Prop :=
  | reach_counted_init cmts scs dns e :
      positive_opt dns →
      __init__ cmts scs dns = Ok e → reachable_counted e
  | reach_counted_add e1 e2 e :
      reachable_counted e1 → reachable_counted e2 → __add__ e1 e2 = Ok e →
      reachable_counted e
  | reach_counted_iadd e1 e2 :
      reachable_counted e1 → reachable_counted e2 →
      reachable_counted (__iadd__ e1 e2).

(** The state of an [Eval] whose key sets agree and whose values are
    positive. *)
Record well_formed (e : Eval) : Prop := mk_well_formed {
  wf_keys : dom (scores e) = dom (denoms e);
  wf_scores : positive (scores e);
  wf_denoms : positive (denoms e)
}.

(** ** [Eval.__repr__] *)

(** [max(values)] of integers; an empty sequence raises [ValueError]. *)
Definition py_max (values : list Z) : result Z :=
  match values with
  | [] => Raise ValueError
  | v :: rest => Ok (foldr Z.max v rest)
  end.

(** The text for one free-form question: a heading, then one line
    ["(evaluator) comment"] for each comment. *)
Definition comment_block (item : string * list Comment) : string :=
  "Comments from " +:+ item.1 +:+ " question:" +:+ nl
  +:+ join nl ((λ c : Comment, "(" +:+ c.1 +:+ ") " +:+ c.2) <$> item.2).

Section Repr.
Context {F : Type}.
Variable truediv : Z → Z → option F.
Variable fadd : F → F → F.
Variable fzero : F.
(** [repr] of the dictionary that [mean] returns; how Python prints
    floats is left abstract. *)
Variable repr_mean : gmap string F → string.

(** The items of [self.comments], in the order [questions] of its keys. *)
Definition comment_items (self : Eval) (questions : list string)
  : list (string * list Comment) :=
  omap (λ question, (question,.) <$> comments self !! question) questions.

(** [count] is computed first, then the comment blocks, then the text
    with [repr(self.mean())].  As for [mean], the orders in which the
    dicts [self.scores] and [self.comments] hold their keys are the
    arguments [keys] and [questions]. *)
Definition __repr__ (keys questions : list string) (self : Eval)
  : result string :=
  count ← py_max (map_to_list (denoms self)).*2;
  let allcomments := comment_block <$> comment_items self questions in
  m ← mean truediv fadd fzero keys self;
  mret ("<Eval of ≈ " +:+ pretty count +:+ " dialogues:" +:+ nl
        +:+ repr_mean m +:+ nl +:+ nl
        +:+ join (nl +:+ nl) allcomments).
End Repr.

End Eval.

(** * agents.py and characters.py, as far as the other files use them *)

Module Agents.
Import Dialogue.

(** What reading [agent.conversation_starters] can give: no such
    attribute, the value [None], or a list of strings.  Other values
    (a dict, a set, a number) are outside the model. *)
Inductive Starters : Type :=
  | NoAttribute
  | NoneValue
  | Sequence (l : list string).

(** Modelled from the spec: the class [Agent] of agents.py, which is not
    among the sources.  An agent has a name and produces reply content
    given a dialogue, which may raise; a character-driven agent may
    expose conversation starters. *)
Record Agent : Type := mkAgent {
  agent_name : string;
  response : Dialogue → result string;
  conversation_starters : Starters
}.

(** Modelled from the spec: [Agent.respond] of agents.py returns the
    dialogue with the agent's own new turn appended under its name. *)
Definition respond (self : Agent) (d : Dialogue) : result Dialogue :=
  cont ← response self d;
  mret (add d (agent_name self) cont).

(** [b.conversation_starters] *)
Definition get_conversation_starters (b : Agent) : result Starters :=
  match conversation_starters b with
  | NoAttribute => Raise AttributeError
  | v => Ok v
  end.

(** [random.choice(starters)] on the value read from the attribute:
    [None] has no length, which raises [TypeError]. *)
Definition choose_starter (r : nat) (starters : Starters) : result string :=
  match starters with
  | NoAttribute => Raise AttributeError
  | NoneValue => Raise TypeError
  | Sequence l => random_choice r l
  end.

(** Modelled from the spec: a [Character] of characters.py has a name;
    its traits and persona only feed prompt text. *)
Record Character : Type := mkCharacter { char_name : string }.

End Agents.

(** * simulate.py *)

Module Simulate.
Import Dialogue Agents.

(** The [try] block of the starter step; it yields the new values of
    [d], [turns], [a] and [b]. *)
Definition starter_step (a b : Agent) (turns : Z) (d : Dialogue) (r : nat)
  : result (Dialogue * Z * Agent * Agent) :=
  starters ← get_conversation_starters b;
  cont ← choose_starter r starters;
  mret (add d (agent_name a) cont, (turns - 1)%Z, b, a).

(** [except (AttributeError, TypeError, ValueError)] *)
Definition starter_caught (e : exn) : bool :=
  match e with
  | AttributeError | TypeError | ValueError => true
  | _ => false
  end.

(** [while turns > 0: d = a.respond(d); turns -= 1; a, b = b, a] *)
Fixpoint respond_loop (fuel : nat) (a b : Agent) (turns : Z) (d : Dialogue)
  : option (result Dialogue) :=
  if bool_decide (turns > 0)%Z then
    match fuel with
    | O => None
    | S fuel' =>
        match respond a d with
        | Ok d' => respond_loop fuel' b a (turns - 1)%Z d'
        | Raise e => Some (Raise e)
        end
    end
  else Some (Ok d).

(** [simulated_dialogue(a, b, turns, prefix=..., starter=...)]; [r] is the
    draw used by [random.choice]. *)
Definition simulated_dialogue (a b : Agent) (turns : Z) (prefix : Dialogue)
    (starter : bool) (r : nat) : option (result Dialogue) :=
  let d := prefix in
  let st :=
    if starter then
      try_except (starter_step a b turns d r) starter_caught
                 (Ok (d, turns, a, b))
    else Ok (d, turns, a, b) in
  match st with
  | Raise e => Some (Raise e)
  | Ok (d, turns, a, b) => respond_loop (Z.to_nat turns) a b turns d
  end.

End Simulate.

(** * eval.py: the participant's evaluation *)

Module Protocol.
Import Dialogue Agents Eval.

Definition research_team : string := "NLP class students".

Section EvaluationAgent.
(** [EvaluationAgent(participant).ask(d, speaker, question)] and
    [.rating(d, speaker, question, lo, hi)] of agents.py, and its
    helper [conjunction(items, zeroval=...)], are not among the
    sources; they are taken as given. *)
Variable ask : Character → Dialogue → string → string → result Dialogue.
Variable rating :
  Character → Dialogue → string → string → Z → Z → result Z.
Variable conjunction : gset string → string → string.

Definition is_ValueError (e : exn) : bool :=
  match e with ValueError => true | _ => false end.

(** [try: scores[key] = agent.rating(...) except ValueError: pass] *)
Definition try_rating (participant : Character) (d : Dialogue)
    (question : string) (lo hi : Z) (key : string) (scs : gmap string Z)
  : result (gmap string Z) :=
  try_except
    (r ← rating participant d research_team question lo hi;
     mret (<[key := r]> scs))
    is_ValueError (Ok scs).

(** The loop [for quality in ['informed', 'intelligent', 'moral']]. *)
Fixpoint quality_ratings (participant : Character) (other : string)
    (d : Dialogue) (qualities : list string) (scs : gmap string Z)
  : result (gmap string Z) :=
  match qualities with
  | [] => mret scs
  | quality :: rest =>
      let question :=
        "Do you think that people who think like " +:+ other
        +:+ " about that topic are " +:+ quality +:+ "?" in
      scs' ← try_rating participant d question 1 5 quality scs;
      quality_ratings participant other d rest scs'
  end.

Definition eval_by_participant (participant : Character) (other : string)
    (dialogue : Dialogue) : result Eval.Eval :=
  let name := char_name participant in
  let speakers := speakers_of dialogue in
  if decide (¬ ({[name; other]} ⊆ speakers_of dialogue))
  then Raise ValueError
  else
    let d : Dialogue := [] in
    let warmup :=
      "Hello " +:+ name +:+ "!  Here is a conversation that you had "
      +:+ "with " +:+ conjunction (speakers ∖ {[name]}) "yourself" +:+ "."
      +:+ nl +:+ nl +:+ script dialogue
      +:+ nl +:+ nl +:+ "What did " +:+ other
      +:+ " disagree with you about? How did the conversation go, in your opinion? "
      +:+ "Where could " +:+ other +:+ " have done better?" in
    d ← ask participant d research_team warmup;
    answer ← last_item d;
    cont ← getitem answer "content";
    let cmts : gmap string (list Comment) :=
      {["overview" := [(char_name participant, cont)]]} in
    let scs : gmap string Z := ∅ in
    let question :=
      "Did " +:+ other
      +:+ " listen carefully to you and engage with what you were saying?" in
    scs ← try_rating participant d question 1 5 "engaged" scs;
    scs ← quality_ratings participant other d
            ["informed"; "intelligent"; "moral"] scs;
    __init__ cmts (Some scs) None.
End EvaluationAgent.

(** ** The observer's evaluation *)

(** The external observer [judge]; only the name matters here. *)
Definition judge : Character := mkCharacter "Judge Wise".

Section Observer.
(** As above, [ask], [rating] and [conjunction] of agents.py are taken as
    given; [zeroval_default] is the default of [conjunction]'s keyword
    [zeroval], which [conjunction(speakers)] uses. *)
Variable ask : Character → Dialogue → string → string → result Dialogue.
Variable rating :
  Character → Dialogue → string → string → Z → Z → result Z.
Variable conjunction : gset string → string → string.
Variable zeroval_default : string.

(** [eval_by_observer(observer, other, dialogue, question=None)] *)
Definition eval_by_observer (observer : Character) (other : string)
    (dialogue : Dialogue) (question : option string) : result Eval.Eval :=
  let speakers := speakers_of dialogue in
  let d : Dialogue := [] in
  let warmup :=
    "Here is a conversation that you observed among "
    +:+ conjunction speakers zeroval_default +:+ "."
    +:+ nl +:+ nl +:+ script dialogue
    +:+ nl +:+ nl +:+ other
    +:+ " was trying to make this a constructive converation, "
    +:+ "and to help " +:+ conjunction (speakers ∖ {[other]}) "themself"
    +:+ " appreciate other points of view. "
    +:+ "How well did " +:+ other +:+ " stay on topic?" in
  d ← ask observer d research_team warmup;
  answer ← last_item d;
  cont ← getitem answer "content";
  let cmts : gmap string (list Comment) :=
    {["mindopening" := [(char_name observer, cont)]]} in
  let scs : gmap string Z := ∅ in
  let question :=
    match question with
    | None =>
        "How skilled is " +:+ other
        +:+ " at helping others become more open-minded?"
    | Some q => q
    end in
  scs ← try_rating rating observer d question 1 10 "skilled" scs;
  Eval.__init__ cmts (Some scs) None.
End Observer.

End Protocol.

(** * argubots.py *)

Module Argubots.
Import Dialogue.

(** One call [kialo.closest_claims(text, n=..., kind=..., threshold=...)];
    [None] for an omitted threshold. *)
Record Query : Type := mkQuery {
  q_text : string;
  q_n : nat;
  q_kind : string;
  q_threshold : option Z
}.

#[global] Instance Query_eq_dec : EqDecision Query.
Proof. solve_decision. Defined.

(** A computation that calls the claims service: it extends the log of
    the calls made so far, in call order, and returns or raises. *)
Definition Service (A : Type) : Type := list Query → result A * list Query.

#[global] Instance service_ret : MRet Service := λ A a log, (Ok a, log).
#[global] Instance service_bind : MBind Service := λ A B f m log,
  match m log with
  | (Ok a, log') => f a log'
  | (Raise e, log') => (Raise e, log')
  end.

Definition lift {A} (r : result A) : Service A := λ log, (r, log).

(** [assert cond] *)
Definition assert (cond : bool) : result unit :=
  if cond then Ok tt else Raise AssertionError.

(** [bool(seq)] of a list, as in [assert neighbors] and [x or y]. *)
Definition truthy {A} (seq : list A) : bool :=
  match seq with [] => false | _ => true end.

Section Kialo.
(** The class [Kialo] of kialo.py is not among the sources: its
    nearest-neighbour search, its tables of counterarguments and of
    supporting arguments, and its random chain are taken as given. *)
Variable closest_claims : string → nat → string → option Z → list string.
Variable cons : string → list string.
Variable pros : string → list string.
Variable random_chain : nat → list string.

Definition call_closest_claims (text : string) (n : nat) (kind : string)
    (threshold : option Z) : Service (list string) :=
  λ log, (Ok (closest_claims text n kind threshold),
          log ++ [mkQuery text n kind threshold]).

(** [seq[0]] *)
Definition first_item {A} (seq : list A) : result A :=
  match seq with
  | x :: _ => Ok x
  | [] => Raise IndexError
  end.

(** [KialoAgent.response(d)]; [r0], [r1], [r2] are the draws of
    [random_chain] and of the two [random.choice] calls. *)
Definition KialoAgent_response (d : Dialogue) (r0 r1 r2 : nat)
  : Service string :=
  if decide (length d = 0) then
    lift (first_item (random_chain r0))
  else
    turn ← lift (last_item d);
    previous_turn ← lift (getitem turn "content");
    neighbors ← call_closest_claims previous_turn 3 "has_cons" None;
    _ ← lift (assert (truthy neighbors));
    neighbor ← lift (random_choice r1 neighbors);
    lift (random_choice r2 (cons neighbor)).

(** The list comprehension
    [[d[i]['content']*(i+1) for i in range(len(d)) if keep(d[i])]]. *)
Definition weighted_turns (keep : Turn → bool) (d : Dialogue) : list string :=
  omap (λ it : nat * Turn,
          if keep it.2 then Some (str_repeat (content it.2) (it.1 + 1))
          else None)
       (imap (λ i turn, (i, turn)) d).

(** [AkikiAgent.response(d)] for the agent called [self_name]. *)
Definition AkikiAgent_response (self_name : string) (d : Dialogue)
    (r0 r1 r2 : nat) : Service string :=
  if decide (length d = 0) then
    lift (first_item (random_chain r0))
  else
    let previous_user_turns :=
      join " " (weighted_turns
                  (λ turn, bool_decide (speaker turn ≠ self_name)) d) in
    let previous_bot_turns :=
      join " " (weighted_turns
                  (λ turn, bool_decide (speaker turn = self_name)) d) in
    neighbors ← call_closest_claims previous_user_turns 3 "has_cons" (Some 8%Z);
    neighbors ←
      (if bool_decide (length neighbors = 0) && bool_decide (1 < length d)
       then call_closest_claims previous_bot_turns 3 "has_pros" (Some 8%Z)
       else mret neighbors);
    neighbors ←
      (if bool_decide (length neighbors = 0)
       then call_closest_claims previous_user_turns 3 "has_cons" None
       else mret neighbors);
    neighbor ← lift (random_choice r1 neighbors);
    lift (random_choice r2
            (if truthy (cons neighbor) then cons neighbor else pros neighbor)).
End Kialo.

End Argubots.

(** * Notions used to state the properties *)

Module DialogueSpec.
Import Dialogue.

(** Without speaker marks every turn becomes one message: [assistant]
    for the turns of [spk], [user] for the others, content unchanged. *)
Definition plain_message (spk : string) (turn : Turn) : Message :=
  mkMessage (if decide (speaker turn = spk) then "assistant" else "user")
            (content turn) None.

(** The message that replaces a run of user messages with contents [cs]. *)
Definition merged (cs : list string) : Message :=
  mkMessage "user" (wrap (join (nl +:+ nl) cs)) None.

Definition flush (cur : option (list string)) : list Message :=
  match cur with
  | Some cs => [merged cs]
  | None => []
  end.

(** The pass as one left-to-right sweep: [cur] holds the contents of the
    run of user messages being read, if any. *)
Fixpoint runs (cur : option (list string)) (msgs : list Message)
  : list Message :=
  match msgs with
  | [] => flush cur
  | m :: rest =>
      if is_user m then runs (Some (default [] cur ++ [msg_content m])) rest
      else flush cur ++ m :: runs None rest
  end.

(** [post] does not start with a user message. *)
Definition starts_clear (post : list Message) : Prop :=
  ∀ m, head post = Some m → is_user m = false.

(** [pre] does not end with a user message. *)
Definition ends_clear (pre : list Message) : Prop :=
  ∀ m, last pre = Some m → is_user m = false.

(** A turn after [rename old new]. *)
Definition renamed (old new : string) (turn : Turn) : Turn :=
  mkTurn (if decide (speaker turn = old) then new else speaker turn)
         (content turn).

(** No two neighbours in [msgs] are both user messages. *)
Fixpoint separated (msgs : list Message) : Prop :=
  match msgs with
  | m :: rest =>
      match rest with
      | m' :: _ => ¬ (is_user m = true ∧ is_user m' = true)
      | [] => True
      end ∧ separated rest
  | [] => True
  end.

(** The messages of [msgs] that are not user messages, in order. *)
Definition others (msgs : list Message) : list Message :=
  filter (λ m, is_user m = false) msgs.

(** The system and tool messages that [format_as_messages] puts before
    and after the turns. *)
Definition leading (kw : Kwargs) : list Message :=
  match system kw with
  | Some s => [mkMessage "system" s None]
  | None => []
  end.

Definition trailing (kw : Kwargs) : list Message :=
  match system_last kw with
  | Some s => [mkMessage "system" s None]
  | None => []
  end
  ++ match tool kw with
     | Some t => [mkMessage "tool" t (tool_name kw)]
     | None => []
     end.

(** The content that the compression pass gives a run of user messages,
    written out character by character: three double quotes (character
    34), a line feed (character 10), the contents of the run with a blank
    line (two line feeds) between any two of them, a line feed, and
    three double quotes. *)
Definition quotes : string :=
  String (Ascii.ascii_of_nat 34)
    (String (Ascii.ascii_of_nat 34)
       (String (Ascii.ascii_of_nat 34) EmptyString)).

Definition line_feed : string := String (Ascii.ascii_of_nat 10) EmptyString.

Fixpoint blank_line_separated (cs : list string) : string :=
  match cs with
  | [] => EmptyString
  | c :: rest =>
      match rest with
      | [] => c
      | _ :: _ => c +:+ line_feed +:+ line_feed +:+ blank_line_separated rest
      end
  end.

Definition delimited (cs : list string) : string :=
  quotes +:+ line_feed +:+ blank_line_separated cs +:+ line_feed +:+ quotes.

(** [n] copies of the turns of [d], one after the other. *)
Fixpoint copies (n : nat) (d : Dialogue) : Dialogue :=
  match n with
  | O => []
  | S n' => d ++ copies n' d
  end.

End DialogueSpec.

Module EvalSpec.
Import Eval.

(** Per-key concatenation of comment lists. *)
Definition merge_comments (a b : gmap string (list Comment))
  : gmap string (list Comment) :=
  union_with (λ x y, Some (x ++ y)) a b.

(** The empty evaluation [Eval()] and the evaluation holding the single
    score [v] for the question ["q"], with the default denominator. *)
Definition eval_empty : Eval := mkEval ∅ ∅ ∅.
Definition eval_q (v : Z) : Eval := mkEval ∅ {["q" := v]} {["q" := 1%Z]}.

(** Exact rational arithmetic as one choice of number type for [mean]:
    [q_truediv] is the quotient; [exact_truediv] always has a value;
    [ranged_truediv] has a value only within the range of a float, that
    is, for a quotient of magnitude below [2^1024]. *)
Definition q_truediv (a b : Z) : QArith_base.Q :=
  QArith_base.Qdiv (QArith_base.inject_Z a) (QArith_base.inject_Z b).
Definition q_zero : QArith_base.Q := QArith_base.inject_Z 0.

Definition exact_truediv (a b : Z) : option QArith_base.Q :=
  Some (q_truediv a b).

Definition ranged_truediv (a b : Z) : option QArith_base.Q :=
  if bool_decide (Z.abs a < 2 ^ 1024 * Z.abs b)%Z then Some (q_truediv a b)
  else None.

(** Evaluations with a criterion called ["TOTAL"], with a zero
    denominator, and with a score beyond the range of a float. *)
Definition eval_total : Eval :=
  mkEval ∅ {["TOTAL" := 3%Z; "q" := 2%Z]} {["TOTAL" := 1%Z; "q" := 1%Z]}.
Definition eval_zero_denom : Eval :=
  mkEval ∅ {["q" := 3%Z]} {["q" := 0%Z]}.
Definition eval_huge : Eval :=
  mkEval ∅ {["q" := (10 ^ 400)%Z]} {["q" := 1%Z]}.

End EvalSpec.

Module SimulateSpec.
Import Dialogue Agents.

(** An agent whose [response] never raises. *)
Definition responsive (a : Agent) : Prop :=
  ∀ d, ∃ cont, response a d = Ok cont.

(** The new turns come from [a] and [b] in alternation, [a] first. *)
Definition alternating (a b : Agent) (new : Dialogue) : Prop :=
  ∀ i turn, new !! i = Some turn →
    speaker turn = agent_name (if Nat.even i then a else b).

(** A fixed-reply agent, with a given [conversation_starters] attribute. *)
Definition constant_agent (name reply : string) (starters : Starters) : Agent :=
  mkAgent name (λ _, Ok reply) starters.

End SimulateSpec.

Module ProtocolSpec.
Import Dialogue Agents.

(** An evaluation agent that always gives the same answer and rating. *)
Definition fixed_ask (participant : Character) (d : Dialogue)
    (asker question : string) : result Dialogue :=
  Ok (add (add d asker question) (char_name participant) "It went well.").

Definition fixed_rating (participant : Character) (d : Dialogue)
    (asker question : string) (lo hi : Z) : result Z :=
  Ok 3%Z.

Definition fixed_conjunction (items : gset string) (zeroval : string) : string :=
  zeroval.

(** The score that a rating call contributes: its value, or nothing
    when it raised. *)
Definition rated (r : result Z) : option Z :=
  match r with
  | Ok v => Some v
  | Raise _ => None
  end.

(** The questions of [eval_by_participant], by score key. *)
Definition engaged_question (other : string) : string :=
  "Did " +:+ other
  +:+ " listen carefully to you and engage with what you were saying?".

Definition quality_question (other quality : string) : string :=
  "Do you think that people who think like " +:+ other
  +:+ " about that topic are " +:+ quality +:+ "?".

(** What the spec says of [rating]: a returned value lies in the range
    asked for. *)
Definition rating_in_range
    (rating : Character → Dialogue → string → string → Z → Z → result Z)
  : Prop :=
  ∀ p d asker question lo hi v,
    rating p d asker question lo hi = Ok v → (lo ≤ v ≤ hi)%Z.

(** A rating that always fails to parse. *)
Definition failing_rating (participant : Character) (d : Dialogue)
    (asker question : string) (lo hi : Z) : result Z :=
  Raise ValueError.

(** A rating that always answers with the lowest value allowed. *)
Definition lowest_rating (participant : Character) (d : Dialogue)
    (asker question : string) (lo hi : Z) : result Z :=
  if bool_decide (lo ≤ hi)%Z then Ok lo else Raise ValueError.

End ProtocolSpec.

Module ArgubotsSpec.
Import Dialogue Argubots.

(** The two query texts of [AkikiAgent.response]. *)
Definition user_turns_text (self_name : string) (d : Dialogue) : string :=
  join " " (weighted_turns (λ turn, bool_decide (speaker turn ≠ self_name)) d).

Definition bot_turns_text (self_name : string) (d : Dialogue) : string :=
  join " " (weighted_turns (λ turn, bool_decide (speaker turn = self_name)) d).

(** The same two texts, written out without the list comprehension:
    [written_times n s] is [s] written [n] times in a row;
    [weighted_contents selected position d] lists, for the turns of [d]
    whose speaker is [selected], the content written as many times as
    the turn's position in the dialogue, the first turn of [d] having
    the position [position]; [spaced] puts one space between the parts. *)
Fixpoint written_times (n : nat) (s : string) : string :=
  match n with
  | O => EmptyString
  | S n' => s +:+ written_times n' s
  end.

Fixpoint weighted_contents (selected : string → bool) (position : nat)
    (d : Dialogue) : list string :=
  match d with
  | [] => []
  | turn :: rest =>
      (if selected (speaker turn)
       then [written_times position (content turn)] else [])
      ++ weighted_contents selected (S position) rest
  end.

Fixpoint spaced (parts : list string) : string :=
  match parts with
  | [] => EmptyString
  | part :: rest =>
      match rest with
      | [] => part
      | _ :: _ => part +:+ " " +:+ spaced rest
      end
  end.

(** The turns of the others (the user), positions counted from one. *)
Definition user_query_text (self_name : string) (d : Dialogue) : string :=
  spaced (weighted_contents (λ spk, bool_decide (spk ≠ self_name)) 1 d).

(** The turns of the agent itself (the bot). *)
Definition bot_query_text (self_name : string) (d : Dialogue) : string :=
  spaced (weighted_contents (λ spk, bool_decide (spk = self_name)) 1 d).

(** A claims service with an empty corpus. *)
Definition no_claims (text : string) (n : nat) (kind : string)
    (threshold : option Z) : list string := [].

Definition no_arguments (claim : string) : list string := [].

(** A claims service that answers only the query without threshold. *)
Definition fallback_claims (text : string) (n : nat) (kind : string)
    (threshold : option Z) : list string :=
  match threshold with
  | Some _ => []
  | None => ["claim"]
  end.

Definition one_con (claim : string) : list string := ["con"].

Definition one_pro (claim : string) : list string := ["pro"].

Definition no_chain (r : nat) : list string := [].

End ArgubotsSpec.
(** * Properties of dialogue.py *)

Module DialogueFacts.
Import Dialogue DialogueSpec.

(** ** Role mapping *)

Lemma turn_messages_plain spk d :
  turn_messages spk false d = Ok (plain_message spk <$> d).
Proof.
  induction d as [|turn d IH]; [done|].
  cbn [turn_messages]. rewrite IH. reflexivity.
Qed.

(** With speaker marks the first turn already fails: a turn has no
    ['role'] key. *)
Lemma turn_messages_marked spk turn d :
  turn_messages spk true (turn :: d) = Raise (KeyError "role").
Proof. reflexivity. Qed.

(** ** The compression pass *)

Lemma span_users (l : list Message) :
  ∃ run post, l = run ++ post ∧ Forall (λ m, is_user m = true) run
              ∧ starts_clear post.
Proof.
  induction l as [|m l (run & post & -> & Hrun & Hpost)].
  - exists [], []. split_and!; [done|constructor|intros ? [=]].
  - destruct (is_user m) eqn:Hm.
    + exists (m :: run), post. split_and!; [done|by constructor|done].
    + exists [], (m :: run ++ post).
      split_and!; [done|constructor|]. intros ? [= <-]. done.
Qed.

Lemma scan_run_app fuel pre run post :
  Forall (λ m, is_user m = true) run → starts_clear post →
  length run ≤ fuel →
  scan_run fuel (pre ++ run ++ post) (length pre)
  = Some (length pre + length run).
Proof.
  intros Hrun Hpost. revert fuel pre.
  induction Hrun as [|m run Hm Hrun IH]; intros fuel pre Hfuel.
  - cbn [app length]. rewrite Nat.add_0_r.
    destruct fuel; cbn [scan_run];
      rewrite lookup_app_r, Nat.sub_diag by lia;
      (destruct post as [|p post]; cbn; [done|];
       rewrite (Hpost p); done).
  - destruct fuel as [|fuel]; [cbn in Hfuel; lia|].
    cbn [scan_run]. rewrite lookup_app_r, Nat.sub_diag by lia.
    cbn [app lookup list_lookup]. rewrite Hm.
    replace (pre ++ m :: run ++ post) with ((pre ++ [m]) ++ run ++ post)
      by (rewrite <- app_assoc; done).
    replace (length pre + 1) with (length (pre ++ [m]))
      by (rewrite length_app; done).
    rewrite IH by (cbn in Hfuel; lia).
    rewrite length_app. cbn. f_equal. lia.
Qed.

Lemma runs_run cs run post :
  Forall (λ m, is_user m = true) run → starts_clear post →
  runs (Some cs) (run ++ post)
  = merged (cs ++ (msg_content <$> run)) :: runs None post.
Proof.
  intros Hrun Hpost. revert cs.
  induction Hrun as [|m run Hm Hrun IH]; intros cs.
  - cbn [app fmap list_fmap]. rewrite app_nil_r.
    destruct post as [|p post]; [done|].
    cbn [runs]. rewrite (Hpost p) by done. done.
  - cbn [app runs]. rewrite Hm. cbn [default]. rewrite IH.
    rewrite <- app_assoc. done.
Qed.

Lemma runs_app pre l cur :
  ends_clear pre → pre ≠ [] ∨ cur = None →
  runs cur (pre ++ l) = runs cur pre ++ runs None l.
Proof.
  revert cur. induction pre as [|m pre IH]; intros cur Hpre Hcur.
  - destruct Hcur as [?| ->]; done.
  - destruct pre as [|m' pre].
    + cbn [app runs]. rewrite (Hpre m) by done.
      rewrite <- app_assoc. done.
    + assert (ends_clear (m' :: pre)) as Hpre' by (intros x Hx; by apply Hpre).
      change ((m :: m' :: pre) ++ l) with (m :: ((m' :: pre) ++ l)).
      cbn [runs]. destruct (is_user m).
      * apply IH; [done|by left].
      * rewrite IH by (done || by left). rewrite <- app_assoc. done.
Qed.

(** The index loop, started at the end of an already processed prefix,
    computes the sweep of the rest. *)
Lemma compress_loop_runs fuel pre l :
  length l ≤ fuel →
  compress_loop fuel (pre ++ l) (length pre) = Some (pre ++ runs None l).
Proof.
  revert pre l. induction fuel as [|fuel IH]; intros pre l Hfuel.
  - destruct l; [|cbn in Hfuel; lia].
    cbn. rewrite app_nil_r, lookup_ge_None_2 by lia. done.
  - destruct l as [|m l].
    { cbn. rewrite app_nil_r, lookup_ge_None_2 by lia. done. }
    cbn [compress_loop]. rewrite lookup_app_r, Nat.sub_diag by lia.
    cbn [lookup list_lookup]. cbn in Hfuel.
    destruct (is_user m) eqn:Hm.
    + destruct (span_users l) as (run & post & -> & Hrun & Hpost).
      replace (pre ++ m :: run ++ post) with ((pre ++ [m]) ++ run ++ post)
        by (rewrite <- app_assoc; done).
      replace (length pre + 1) with (length (pre ++ [m]))
        by (rewrite length_app; done).
      rewrite scan_run_app; [|done|done|rewrite !length_app; cbn; lia].
      cbn [mbind option_bind].
      unfold slice, slice_assign.
      rewrite (length_app pre [m]). cbn [length].
      rewrite <- (app_assoc pre [m]). cbn [app].
      rewrite drop_app_length.
      replace (length pre + 1 + length run - length pre)
        with (length (m :: run)) by (cbn; lia).
      change (m :: run ++ post) with ((m :: run) ++ post).
      rewrite take_app_length.
      rewrite take_app_length.
      replace (length pre `max` (length pre + 1 + length run))
        with (length (pre ++ m :: run)) by (rewrite length_app; cbn; lia).
      rewrite (app_assoc pre (m :: run) post), drop_app_length.
      set (w := mkMessage _ _ _).
      replace (pre ++ w :: post) with ((pre ++ [w]) ++ post)
        by (rewrite <- app_assoc; done).
      replace (length pre + 1) with (length (pre ++ [w]))
        by (rewrite length_app; done).
      rewrite IH by (rewrite length_app in Hfuel; lia).
      rewrite <- app_assoc. f_equal. f_equal.
      change ((m :: run) ++ post) with (m :: (run ++ post)).
      cbn [runs]. rewrite Hm. cbn [default app].
      rewrite runs_run by done. done.
    + replace (pre ++ m :: l) with ((pre ++ [m]) ++ l)
        by (rewrite <- app_assoc; done).
      replace (length pre + 1) with (length (pre ++ [m]))
        by (rewrite length_app; done).
      rewrite IH by lia. rewrite <- app_assoc. cbn [runs]. rewrite Hm. done.
Qed.

(** The pass always ends, and computes the sweep. *)
Lemma compress_pass_runs msgs : compress_pass msgs = Some (runs None msgs).
Proof.
  unfold compress_pass.
  apply (compress_loop_runs (length msgs) [] msgs). done.
Qed.



(** What the call assembles before the compression pass when the
    contents are not marked. *)
Lemma format_as_messages_plain d spk kw :
  speaker_names kw = Some false → compress kw = Some false →
  format_as_messages d spk kw
  = Some (Ok (match system kw with
              | Some s => [mkMessage "system" s None]
              | None => []
              end
              ++ (plain_message spk <$> d)
              ++ match system_last kw with
                 | Some s => [mkMessage "system" s None]
                 | None => []
                 end
              ++ match tool kw with
                 | Some t => [mkMessage "tool" t (tool_name kw)]
                 | None => []
                 end)).
Proof.
  intros Hn Hc. unfold format_as_messages. rewrite Hn, Hc. cbn [default].
  by rewrite turn_messages_plain.
Qed.

(** C2, at the input [Dialogue().add("Alice", "hi")] with speaker ["Bob"]
    and [speaker_names=True]: instead of a message whose content is the
    turn's content prefixed with ["Alice"], the call raises
    [KeyError('role')], because the marked content is read from the key
    ['role'], which a turn does not have.  The same happens for every
    non-empty dialogue whenever the contents are to be marked, by the
    keyword or by the default for more than two speakers. *)
Theorem format_as_messages_marked_raises :
  format_as_messages (add [] "Alice" "hi") "Bob"
    (mkKwargs None None (Some true) None None None)
  = Some (Raise (KeyError "role"))
  ∧ ∀ turn d spk kw,
      default (bool_decide (2 < size (speakers_of (turn :: d) ∪ {[spk]})))
              (speaker_names kw) = true →
      format_as_messages (turn :: d) spk kw = Some (Raise (KeyError "role")).
Proof.
  split; [reflexivity|].
  intros turn d spk kw Hmarked. unfold format_as_messages.
  rewrite Hmarked. by rewrite turn_messages_marked.
Qed.

(** Three speakers and no keyword: the contents are marked by default. *)
Lemma format_as_messages_marked_raises_witness :
  format_as_messages [mkTurn "Alice" "hi"; mkTurn "Carol" "ho"] "Bob" no_kwargs
  = Some (Raise (KeyError "role")).
Proof.
  apply (proj2 format_as_messages_marked_raises). by vm_compute.
Defined.

Lemma join_blank_lines cs :
  join (nl +:+ nl) cs = blank_line_separated cs.
Proof.
  unfold join. induction cs as [|c [|c' rest] IH]; [done..|].
  change (String.concat (nl +:+ nl) (c :: c' :: rest))
    with (c +:+ (nl +:+ nl) +:+ String.concat (nl +:+ nl) (c' :: rest)).
  rewrite IH.
  change (blank_line_separated (c :: c' :: rest))
    with (c +:+ line_feed +:+ line_feed
          +:+ blank_line_separated (c' :: rest)).
  reflexivity.
Qed.

Lemma merged_delimited cs :
  merged cs = mkMessage "user" (delimited cs) None.
Proof. unfold merged, wrap. by rewrite join_blank_lines. Qed.

(** C10: the compression pass replaces every maximal run of consecutive
    user messages, also a run of length one, by a single user message
    with no name, whose content is three double quotes, a line feed, the
    run's contents with a blank line between them, a line feed and three
    double quotes; what comes before and after the run is left to the
    passes over these parts.  So a lone user message with content [c]
    becomes one with [c] between the two delimiter lines, two user
    messages ["a"] and ["b"] become one, and with the two speakers Alice
    and Bob and [compress=True], Alice's lone message ["hi"] comes out
    wrapped although nothing was merged. *)
Theorem compress_wraps_every_run :
  (∀ pre run post : list Message,
     run ≠ [] → Forall (λ m, role m = "user") run →
     ends_clear pre → starts_clear post →
     ∃ pre' post',
       compress_pass pre = Some pre' ∧ compress_pass post = Some post' ∧
       compress_pass (pre ++ run ++ post)
       = Some (pre' ++ mkMessage "user" (delimited (msg_content <$> run)) None
                    :: post'))
  ∧ (∀ c name,
       compress_pass [mkMessage "user" c name]
       = Some [mkMessage "user"
                 (quotes +:+ line_feed +:+ c +:+ line_feed +:+ quotes) None])
  ∧ compress_pass [mkMessage "user" "a" None; mkMessage "user" "b" None;
                   mkMessage "assistant" "c" None]
    = Some [mkMessage "user"
              (quotes +:+ line_feed +:+ "a" +:+ line_feed +:+ line_feed
               +:+ "b" +:+ line_feed +:+ quotes) None;
            mkMessage "assistant" "c" None]
  ∧ (∃ (d : Dialogue) (spk : string),
       size (speakers_of d) = 2 ∧ size (speakers_of d ∪ {[spk]}) = 2 ∧
       format_as_messages d spk no_kwargs
       = Some (Ok [mkMessage "user" "hi" None;
                   mkMessage "assistant" "hello" None]) ∧
       format_as_messages d spk (mkKwargs None None None (Some true) None None)
       = Some (Ok [mkMessage "user"
                     (quotes +:+ line_feed +:+ "hi" +:+ line_feed +:+ quotes)
                     None;
                   mkMessage "assistant" "hello" None]) ∧
       quotes +:+ line_feed +:+ "hi" +:+ line_feed +:+ quotes ≠ "hi").
Proof.
  split_and!.
  - intros pre run post Hne Hrun Hpre Hpost.
    assert (Forall (λ m, is_user m = true) run) as Hrun'.
    { eapply Forall_impl; [exact Hrun|]. intros m Hm. unfold is_user.
      by apply bool_decide_eq_true. }
    exists (runs None pre), (runs None post).
    rewrite !compress_pass_runs. split_and!; [done..|].
    f_equal. rewrite runs_app by (done || by right). f_equal.
    destruct Hrun' as [|m run Hm Hrun']; [done|].
    cbn [app runs]. rewrite Hm. cbn [default app].
    by rewrite runs_run, merged_delimited.
  - intros c name. rewrite compress_pass_runs. reflexivity.
  - by vm_compute.
  - exists [mkTurn "Alice" "hi"; mkTurn "Bob" "hello"], "Bob".
    split_and!; [by vm_compute..|]. by vm_compute.
Qed.

(** A run of two user messages between two assistant messages. *)
Lemma compress_wraps_every_run_witness :
  compress_pass ([mkMessage "assistant" "a" None]
                 ++ [mkMessage "user" "u" None; mkMessage "user" "v" None]
                 ++ [mkMessage "assistant" "b" None])
  = Some ([mkMessage "assistant" "a" None]
          ++ mkMessage "user"
               (quotes +:+ line_feed +:+ "u" +:+ line_feed +:+ line_feed
                +:+ "v" +:+ line_feed +:+ quotes) None
          :: [mkMessage "assistant" "b" None]).
Proof.
  destruct (proj1 compress_wraps_every_run
              [mkMessage "assistant" "a" None]
              [mkMessage "user" "u" None; mkMessage "user" "v" None]
              [mkMessage "assistant" "b" None])
    as (pre' & post' & Hpre & Hpost & ->).
  - discriminate.
  - repeat constructor.
  - intros m [= <-]. reflexivity.
  - intros m [= <-]. reflexivity.
  - injection Hpre as <-. injection Hpost as <-. reflexivity.
Defined.

End DialogueFacts.

(** * Properties of the aggregator of eval.py *)

Module EvalFacts.
Import Eval EvalSpec.

(** ** Counters *)

Lemma counter_add_lookup a b k :
  counter_add a b !! k =
  match a !! k, b !! k with
  | Some x, y =>
      if bool_decide (0 < x + default 0 y)%Z then Some (x + default 0 y)%Z
      else None
  | None, Some y => if bool_decide (0 < y)%Z then Some y else None
  | None, None => None
  end.
Proof.
  unfold counter_add. rewrite lookup_merge.
  destruct (a !! k), (b !! k); reflexivity.
Qed.

Lemma counter_iadd_lookup a b k :
  counter_iadd a b !! k = counter_add a b !! k.
Proof.
  rewrite counter_add_lookup. unfold counter_iadd, keep_positive.
  rewrite map_lookup_filter, lookup_merge.
  destruct (a !! k) as [x|], (b !! k) as [y|]; cbn;
    repeat case_guard; repeat case_bool_decide; cbn in *;
    try reflexivity; try lia; f_equal; lia.
Qed.

(** [+=] and [+] compute the same counter. *)
Lemma counter_iadd_add a b : counter_iadd a b = counter_add a b.
Proof. apply map_eq. intros k. apply counter_iadd_lookup. Qed.

(** A sum of counters holds positive counts only. *)
Lemma counter_add_positive a b : positive (counter_add a b).
Proof.
  intros k v. rewrite counter_add_lookup.
  destruct (a !! k), (b !! k); repeat case_bool_decide;
    intros [= <-]; done.
Qed.

Lemma counter_add_pos_lookup a b k :
  positive a → positive b →
  counter_add a b !! k = union_with (λ x y, Some (x + y)%Z) (a !! k) (b !! k).
Proof.
  intros Ha Hb. rewrite counter_add_lookup.
  destruct (a !! k) as [x|] eqn:Hx, (b !! k) as [y|] eqn:Hy; cbn;
    try apply Ha in Hx; try apply Hb in Hy; cbn in *;
    repeat case_bool_decide; try reflexivity; try lia.
  f_equal. lia.
Qed.

Lemma counter_add_dom a b :
  positive a → positive b → dom (counter_add a b) = dom a ∪ dom b.
Proof.
  intros Ha Hb. apply set_eq. intros k.
  rewrite elem_of_union, !elem_of_dom, counter_add_pos_lookup by done.
  destruct (a !! k), (b !! k); cbn; split; intros H;
    try (destruct H as [H|H]); try (by inversion H); eauto.
Qed.

Lemma counter_add_comm a b :
  positive a → positive b → counter_add a b = counter_add b a.
Proof.
  intros Ha Hb. apply map_eq. intros k.
  rewrite !counter_add_pos_lookup by done.
  destruct (a !! k), (b !! k); cbn; try reflexivity. f_equal. lia.
Qed.

Lemma counter_add_assoc a b c :
  positive a → positive b → positive c →
  counter_add (counter_add a b) c = counter_add a (counter_add b c).
Proof.
  intros Ha Hb Hc. apply map_eq. intros k.
  rewrite !counter_add_pos_lookup by auto using counter_add_positive.
  destruct (a !! k), (b !! k), (c !! k); cbn; try reflexivity.
  f_equal. lia.
Qed.

(** ** Comments *)

Lemma fold_extend_comments l acc :
  NoDup l.*1 →
  fold_left extend_comments l acc = merge_comments acc (list_to_map l).
Proof.
  revert acc. induction l as [|[k v] l IH]; intros acc Hnd.
  - cbn. unfold merge_comments. apply map_eq. intros i.
    rewrite lookup_union_with, lookup_empty. by destruct (acc !! i).
  - cbn in Hnd. apply NoDup_cons in Hnd as [Hk Hnd].
    cbn [fold_left]. rewrite IH by done.
    unfold merge_comments, extend_comments, comments_get. cbn [fst snd].
    apply map_eq. intros i. rewrite !lookup_union_with.
    cbn [list_to_map foldr uncurry]. cbn.
    destruct (decide (i = k)) as [->|Hne].
    + rewrite !lookup_insert_eq.
      rewrite (proj1 (not_elem_of_list_to_map l k)) by done.
      by destruct (acc !! k).
    + by rewrite !lookup_insert_ne.
Qed.

Lemma fold_extend_comments_map m acc :
  fold_left extend_comments (map_to_list m) acc = merge_comments acc m.
Proof.
  rewrite fold_extend_comments by apply NoDup_fst_map_to_list.
  by rewrite list_to_map_to_list.
Qed.

Lemma merge_comments_empty_l m : merge_comments ∅ m = m.
Proof.
  apply map_eq. intros i. unfold merge_comments.
  rewrite lookup_union_with, lookup_empty. by destruct (m !! i).
Qed.

Lemma comments_get_merge a b k :
  comments_get (merge_comments a b) k = comments_get a k ++ comments_get b k.
Proof.
  unfold comments_get, merge_comments. rewrite lookup_union_with.
  destruct (a !! k), (b !! k); cbn; by rewrite ?app_nil_r.
Qed.

(** ** Construction and merges *)

Lemma init_ok cmts scs dns :
  dom scs = dom dns →
  __init__ cmts (Some scs) (Some dns) = Ok (mkEval cmts scs dns).
Proof. intros H. unfold __init__. cbn. by rewrite decide_False by auto. Qed.

Lemma init_inv cmts scs dns e :
  __init__ cmts scs dns = Ok e →
  comments e = cmts ∧ scores e = default ∅ scs ∧ dom (scores e) = dom (denoms e)
  ∧ denoms e = match dns with
               | None => (λ _, 1%Z) <$> default ∅ scs
               | Some d => d
               end.
Proof.
  unfold __init__. case_decide as H; [done|]. intros [= <-]. cbn.
  split_and!; done.
Qed.

Lemma add_ok e1 e2 :
  well_formed e1 → well_formed e2 →
  __add__ e1 e2
  = Ok (mkEval (merge_comments (comments e1) (comments e2))
               (counter_add (scores e1) (scores e2))
               (counter_add (denoms e1) (denoms e2))).
Proof.
  intros [Hk1 Hs1 Hd1] [Hk2 Hs2 Hd2]. unfold __add__.
  rewrite fold_left_app, !fold_extend_comments_map, merge_comments_empty_l.
  apply init_ok. rewrite !counter_add_dom by done. by rewrite Hk1, Hk2.
Qed.

Lemma iadd_eq e1 e2 :
  __iadd__ e1 e2
  = mkEval (merge_comments (comments e1) (comments e2))
           (counter_add (scores e1) (scores e2))
           (counter_add (denoms e1) (denoms e2)).
Proof.
  unfold __iadd__.
  by rewrite fold_extend_comments_map, !counter_iadd_add.
Qed.

Lemma sum_well_formed cmts e1 e2 :
  well_formed e1 → well_formed e2 →
  well_formed (mkEval cmts (counter_add (scores e1) (scores e2))
                      (counter_add (denoms e1) (denoms e2))).
Proof.
  intros [Hk1 Hs1 Hd1] [Hk2 Hs2 Hd2].
  split; cbn; [|apply counter_add_positive..].
  rewrite !counter_add_dom by done. by rewrite Hk1, Hk2.
Qed.

Lemma reachable_pos_well_formed e : reachable_pos e → well_formed e.
Proof.
  induction 1 as [cmts scs dns e Hs Hd Hinit
                 |e1 e2 e _ IH1 _ IH2 Hadd
                 |e1 e2 _ IH1 _ IH2].
  - apply init_inv in Hinit as (_ & Hsc & Hdom & Hdn).
    split; [done|..].
    + rewrite Hsc. destruct scs; [done|apply map_Forall_empty].
    + rewrite Hdn. destruct dns as [d|]; [done|].
      intros k v. rewrite lookup_fmap_Some. by intros (? & <- & _).
  - rewrite add_ok in Hadd by done. injection Hadd as <-.
    by apply sum_well_formed.
  - rewrite iadd_eq. by apply sum_well_formed.
Qed.

(** ** Associativity and commutativity of the merge *)

(** C1, at Evals with a zero score: [Eval({}, {'q': 0})], [Eval()] and
    [Eval({}, {'q': 1})] are all constructed, yet grouping to the left
    raises [ValueError] (the sum of the first two has lost the key ['q']
    from its scores but not from its denominators) while grouping to the
    right yields scores [{'q': 1}] and denominators [{'q': 2}]. *)
Lemma add_zero_score_not_associative :
  __init__ ∅ (Some {["q" := 0%Z]}) None = Ok (eval_q 0) ∧
  __init__ ∅ None None = Ok eval_empty ∧
  __init__ ∅ (Some {["q" := 1%Z]}) None = Ok (eval_q 1) ∧
  (e12 ← __add__ (eval_q 0) eval_empty; __add__ e12 (eval_q 1))
  = Raise ValueError ∧
  (e23 ← __add__ eval_empty (eval_q 1); __add__ (eval_q 0) e23)
  = Ok (mkEval ∅ {["q" := 1%Z]} {["q" := 2%Z]}).
Proof. split_and!; by vm_compute. Qed.

(** C1 (amended): for Evals whose score and denominator key sets agree
    and whose scores and denominators are strictly positive, the sums
    [(e1+e2)+e3], [e1+(e2+e3)] and [e2+(e1+e3)] all exist and have the
    same scores and the same denominators, and under every key their
    comment lists are permutations of one another. *)
Theorem add_assoc_comm e1 e2 e3 :
  well_formed e1 → well_formed e2 → well_formed e3 →
  ∃ a b c,
    (e12 ← __add__ e1 e2; __add__ e12 e3) = Ok a ∧
    (e23 ← __add__ e2 e3; __add__ e1 e23) = Ok b ∧
    (e13 ← __add__ e1 e3; __add__ e2 e13) = Ok c ∧
    scores a = scores b ∧ scores a = scores c ∧
    denoms a = denoms b ∧ denoms a = denoms c ∧
    ∀ k, comments_get (comments a) k ≡ₚ comments_get (comments b) k ∧
         comments_get (comments a) k ≡ₚ comments_get (comments c) k.
Proof.
  intros H1 H2 H3.
  pose proof (sum_well_formed
    (merge_comments (comments e1) (comments e2)) e1 e2 H1 H2) as H12.
  pose proof (sum_well_formed
    (merge_comments (comments e2) (comments e3)) e2 e3 H2 H3) as H23.
  pose proof (sum_well_formed
    (merge_comments (comments e1) (comments e3)) e1 e3 H1 H3) as H13.
  eexists _, _, _.
  rewrite (add_ok e1 e2), (add_ok e2 e3), (add_ok e1 e3) by done.
  cbn [mbind result_bind].
  rewrite !add_ok by done. cbn [scores denoms comments].
  destruct H1 as [_ Hs1 Hd1], H2 as [_ Hs2 Hd2], H3 as [_ Hs3 Hd3].
  split_and!; try reflexivity.
  - by apply counter_add_assoc.
  - rewrite (counter_add_comm (scores e1) (scores e2)) by done.
    by apply counter_add_assoc.
  - by apply counter_add_assoc.
  - rewrite (counter_add_comm (denoms e1) (denoms e2)) by done.
    by apply counter_add_assoc.
  - intros k. cbn [comments]. rewrite !comments_get_merge. split.
    + by rewrite <- app_assoc.
    + rewrite <- app_assoc. apply Permutation_app_swap_app.
Qed.

Lemma eval_q_well_formed v : (0 < v)%Z → well_formed (eval_q v).
Proof.
  intros Hv. split; cbn.
  - by rewrite !dom_singleton_L.
  - by apply map_Forall_singleton.
  - by apply map_Forall_singleton.
Qed.

Lemma add_assoc_comm_witness :
  ∃ a b c,
    (e12 ← __add__ (eval_q 3) (eval_q 4); __add__ e12 (eval_q 5)) = Ok a ∧
    (e23 ← __add__ (eval_q 4) (eval_q 5); __add__ (eval_q 3) e23) = Ok b ∧
    (e13 ← __add__ (eval_q 3) (eval_q 5); __add__ (eval_q 4) e13) = Ok c ∧
    scores a = scores b ∧ scores a = scores c ∧
    denoms a = denoms b ∧ denoms a = denoms c ∧
    ∀ k, comments_get (comments a) k ≡ₚ comments_get (comments b) k ∧
         comments_get (comments a) k ≡ₚ comments_get (comments c) k.
Proof.
  apply (add_assoc_comm (eval_q 3) (eval_q 4) (eval_q 5));
    apply eval_q_well_formed; lia.
Defined.

(** ** The key-set invariant *)

(** C3, at an Eval with a zero score: [Eval({}, {'q': 0})] is
    constructed with denominators [{'q': 1}]; after [+= Eval()] its
    scores are empty while its denominators still hold ['q']. *)
Lemma iadd_zero_score_breaks_key_sets :
  reachable (__iadd__ (eval_q 0) eval_empty) ∧
  scores (__iadd__ (eval_q 0) eval_empty) = ∅ ∧
  denoms (__iadd__ (eval_q 0) eval_empty) = {["q" := 1%Z]} ∧
  dom (scores (__iadd__ (eval_q 0) eval_empty))
  ≠ dom (denoms (__iadd__ (eval_q 0) eval_empty)).
Proof.
  split_and!.
  - apply reach_iadd.
    + by apply (reach_init ∅ (Some {["q" := 0%Z]}) None).
    + by apply (reach_init ∅ None None).
  - by vm_compute.
  - by vm_compute.
  - by vm_compute.
Qed.

(** C3 (amended): every Eval built by construction from strictly
    positive scores and denominators and by any sequence of [+] and [+=]
    merges has the same key set in its scores and in its denominators;
    construction with differing key sets raises [ValueError]; and when
    the denominators are omitted construction succeeds and every score
    key gets the denominator 1. *)
Theorem key_sets_agree :
  (∀ e, reachable_pos e → dom (scores e) = dom (denoms e)) ∧
  (∀ cmts scs dns,
     dom (default ∅ scs) ≠ dom dns →
     __init__ cmts scs (Some dns) = Raise ValueError) ∧
  (∀ cmts scs, ∃ e,
     __init__ cmts scs None = Ok e ∧ scores e = default ∅ scs ∧
     ∀ k, k ∈ dom (scores e) → denoms e !! k = Some 1%Z).
Proof.
  split_and!.
  - intros e He. by destruct (reachable_pos_well_formed e He).
  - intros cmts scs dns Hne. unfold __init__. by rewrite decide_True.
  - intros cmts scs. eexists. unfold __init__.
    rewrite decide_False by (rewrite dom_fmap_L; auto).
    split_and!; [reflexivity..|]. cbn.
    intros k [v Hv]%elem_of_dom. by rewrite lookup_fmap, Hv.
Qed.

Lemma key_sets_agree_witness :
  dom (scores (__iadd__ (eval_q 2) (eval_q 5)))
  = dom (denoms (__iadd__ (eval_q 2) (eval_q 5))).
Proof.
  apply (proj1 key_sets_agree). apply reach_pos_iadd.
  - apply (reach_pos_init ∅ (Some {["q" := 2%Z]}) None);
      [by apply map_Forall_singleton|done|by vm_compute].
  - apply (reach_pos_init ∅ (Some {["q" := 5%Z]}) None);
      [by apply map_Forall_singleton|done|by vm_compute].
Defined.

(** ** The mean *)

(** Denominators that are omitted or positive at construction stay
    positive, and cover the keys of the scores. *)
Lemma reachable_counted_inv e :
  reachable_counted e →
  dom (scores e) ⊆ dom (denoms e) ∧ positive (denoms e).
Proof.
  induction 1 as [cmts scs dns e Hd Hinit
                 |e1 e2 e _ IH1 _ IH2 Hadd
                 |e1 e2 _ [Hk1 Hd1] _ [Hk2 Hd2]].
  - apply init_inv in Hinit as (_ & Hsc & Hdom & Hdn).
    split; [by rewrite Hdom|].
    rewrite Hdn. destruct dns as [d|]; [done|].
    intros k v. rewrite lookup_fmap_Some. by intros (? & <- & _).
  - unfold __add__ in Hadd. apply init_inv in Hadd as (_ & _ & Hdom & Hdn).
    split; [by rewrite Hdom|]. rewrite Hdn. apply counter_add_positive.
  - rewrite iadd_eq. cbn [scores denoms].
    split; [|apply counter_add_positive].
    rewrite (counter_add_dom (denoms e1) (denoms e2)) by done.
    apply elem_of_subseteq. intros k [v Hv]%elem_of_dom.
    rewrite counter_add_lookup in Hv. apply elem_of_union.
    destruct (scores e1 !! k) eqn:H1.
    + left. apply Hk1, elem_of_dom. by eexists.
    + destruct (scores e2 !! k) eqn:H2; [|done].
      right. apply Hk2, elem_of_dom. by eexists.
Qed.

Lemma counted_denominator e k s :
  dom (scores e) ⊆ dom (denoms e) → positive (denoms e) →
  scores e !! k = Some s → ∃ d, denoms e !! k = Some d ∧ (1 ≤ d)%Z.
Proof.
  intros Hsub Hpos Hs.
  assert (k ∈ dom (denoms e)) as [d Hd]%elem_of_dom.
  { apply Hsub, elem_of_dom. by eexists. }
  exists d. split; [done|]. apply Hpos in Hd. cbn in Hd. lia.
Qed.

Section MeanFacts.
Context {F : Type}.
Variable truediv : Z → Z → option F.
Variable fadd : F → F → F.
Variable fzero : F.

Lemma quotients_Ok_inv e keys qs :
  quotients truediv e keys = Ok qs →
  qs.*1 = keys ∧
  Forall2 (λ k q,
    counter_get (denoms e) k ≠ 0%Z ∧
    truediv (counter_get (scores e) k) (counter_get (denoms e) k) = Some q)
    keys qs.*2.
Proof.
  revert qs. induction keys as [|k keys IH]; intros qs; cbn [quotients].
  - intros [= <-]. by split; [|constructor].
  - unfold quotient at 1. case_decide as Hd; [done|].
    destruct (truediv _ _) as [q|] eqn:Hq; [|done].
    cbn [mbind result_bind].
    destruct (quotients truediv e keys) as [qs'|x] eqn:Hqs; [|done].
    cbn. intros [= <-]. destruct (IH _ eq_refl) as [Hk HF]. cbn.
    split; [by rewrite Hk|]. by constructor.
Qed.

Lemma quotients_Raise_inv e keys x :
  quotients truediv e keys = Raise x →
  ∃ k, k ∈ keys ∧
    (counter_get (denoms e) k = 0%Z ∧ x = ZeroDivisionError
     ∨ counter_get (denoms e) k ≠ 0%Z
       ∧ truediv (counter_get (scores e) k) (counter_get (denoms e) k) = None
       ∧ x = OverflowError).
Proof.
  induction keys as [|k keys IH]; cbn [quotients]; [done|].
  unfold quotient at 1. case_decide as Hd.
  - intros [= <-]. exists k. split; [left|]. by left.
  - destruct (truediv _ _) as [q|] eqn:Hq.
    + cbn [mbind result_bind].
      destruct (quotients truediv e keys) as [qs'|x'] eqn:Hqs; [done|].
      cbn. intros [= <-]. destruct (IH eq_refl) as (k' & Hk' & Hcase).
      exists k'. split; [by right|done].
    + intros [= <-]. exists k. split; [left|]. right. by split_and!.
Qed.

Lemma mean_Ok keys e qs :
  quotients truediv e keys = Ok qs →
  mean truediv fadd fzero keys e
  = Ok (<["TOTAL" := fold_left fadd qs.*2 fzero]> (list_to_map qs)).
Proof. intros H. unfold mean. by rewrite H. Qed.

Lemma mean_Raise_inv keys e x :
  mean truediv fadd fzero keys e = Raise x →
  quotients truediv e keys = Raise x.
Proof.
  unfold mean. destruct (quotients truediv e keys); [done|]. by intros [= <-].
Qed.

Lemma mean_Ok_inv keys e m :
  mean truediv fadd fzero keys e = Ok m →
  ∃ qs, quotients truediv e keys = Ok qs.
Proof.
  unfold mean. destruct (quotients truediv e keys); [by eexists|done].
Qed.

Lemma paired_values {P : string → F → Prop} (keys : list string)
    (qs : list (string * F)) k :
  qs.*1 = keys → Forall2 P keys qs.*2 → k ∈ keys →
  ∃ q, (k, q) ∈ qs ∧ P k q.
Proof.
  revert keys. induction qs as [|[k' q'] qs IH]; intros keys <- HF Hk.
  - by apply elem_of_nil in Hk.
  - cbn in *. apply Forall2_cons in HF as [HP HF].
    apply elem_of_cons in Hk as [->|Hk].
    + exists q'. split; [left|done].
    + destruct (IH _ eq_refl HF Hk) as (q & Hq & HPq).
      exists q. split; [by right|done].
Qed.

(** The mean of an Eval whose denominators are not zero and whose
    quotients have values. *)
Lemma mean_lookup e keys :
  NoDup keys →
  (∀ k, k ∈ keys →
     counter_get (denoms e) k ≠ 0%Z ∧
     is_Some (truediv (counter_get (scores e) k) (counter_get (denoms e) k))) →
  ∃ m qs,
    mean truediv fadd fzero keys e = Ok m
    ∧ Forall2 (λ k q,
        truediv (counter_get (scores e) k) (counter_get (denoms e) k) = Some q)
        keys qs
    ∧ (∀ k, k ∈ keys → k ≠ "TOTAL" →
         ∃ q, truediv (counter_get (scores e) k) (counter_get (denoms e) k)
              = Some q ∧ m !! k = Some q)
    ∧ m !! "TOTAL" = Some (fold_left fadd qs fzero)
    ∧ dom m = list_to_set keys ∪ {["TOTAL"]}.
Proof.
  intros Hnd Hall.
  destruct (quotients truediv e keys) as [qs|x] eqn:Hqs.
  - destruct (quotients_Ok_inv _ _ _ Hqs) as [Hkeys HF].
    exists (<["TOTAL" := fold_left fadd qs.*2 fzero]> (list_to_map qs)), qs.*2.
    split_and!.
    + by apply mean_Ok.
    + eapply Forall2_impl; [exact HF|]. by intros k q [_ ?].
    + intros k Hk Hne.
      destruct (paired_values keys qs k Hkeys HF Hk) as (q & Hq & _ & Hdiv).
      exists q. split; [done|]. rewrite lookup_insert_ne by done.
      apply elem_of_list_to_map_1; [by rewrite Hkeys|done].
    + by rewrite lookup_insert_eq.
    + rewrite dom_insert_L, dom_list_to_map_L, Hkeys. apply (comm_L (∪)).
  - apply quotients_Raise_inv in Hqs as (k & Hk & [[Hz _]|(_ & Hnone & _)]);
      destruct (Hall k Hk) as [Hnz [q Hq]]; congruence.
Qed.
End MeanFacts.

(** C6, outside the Evals of the amended statement.  An Eval constructed
    with explicit denominators, [Eval({}, {'q': 3}, {'q': 0})], passes the
    key-set check, so the key ['q'] of its scores has the denominator 0
    and [mean()] raises [ZeroDivisionError].  For
    [Eval({}, {'TOTAL': 3, 'q': 2})] the mapping holds 5 under ['TOTAL'],
    not the mean 3 of that criterion.  For [Eval({}, {'q': 10**400})]
    and a division with the range of a float, [mean()] raises
    [OverflowError]. *)
Lemma mean_raises_or_overwrites :
  (__init__ ∅ (Some {["q" := 3%Z]}) (Some {["q" := 0%Z]}) = Ok eval_zero_denom
   ∧ scores eval_zero_denom !! "q" = Some 3%Z
   ∧ denoms eval_zero_denom !! "q" = Some 0%Z
   ∧ mean exact_truediv QArith_base.Qplus q_zero ["q"] eval_zero_denom
     = Raise ZeroDivisionError)
  ∧ (__init__ ∅ (Some {["TOTAL" := 3%Z; "q" := 2%Z]}) None = Ok eval_total
     ∧ scores eval_total !! "TOTAL" = Some 3%Z
     ∧ denoms eval_total !! "TOTAL" = Some 1%Z
     ∧ ∃ m,
         mean exact_truediv QArith_base.Qplus q_zero ["TOTAL"; "q"] eval_total
         = Ok m
         ∧ m !! "TOTAL" = Some (QArith_base.Qmake 5 1)
         ∧ exact_truediv 3 1 = Some (QArith_base.Qmake 3 1))
  ∧ (__init__ ∅ (Some {["q" := (10 ^ 400)%Z]}) None = Ok eval_huge
     ∧ ranged_truediv (10 ^ 400) 1 = None
     ∧ mean ranged_truediv QArith_base.Qplus q_zero ["q"] eval_huge
       = Raise OverflowError).
Proof.
  split_and!; try by vm_compute.
  eexists. split_and!; by vm_compute.
Qed.

(** C6 (amended): for every Eval built by construction with omitted or
    strictly positive denominators and by [+] and [+=], every key of the
    scores has a denominator of at least 1.  Let [keys] be the keys of
    its scores in the order of the dict.  If no criterion is called
    ["TOTAL"] and every quotient [scores[k]/denoms[k]] has a float value,
    [mean()] returns a mapping that holds that quotient under each
    criterion [k], under ["TOTAL"] the sum of the quotients, added from
    the left in the order of [keys] starting from zero, and nothing
    else.  If some quotient has no float value, [mean()] raises
    [OverflowError]. *)
Theorem mean_of_reachable {F : Type} (truediv : Z → Z → option F)
    (fadd : F → F → F) (fzero : F) (e : Eval) (keys : list string) :
  reachable_counted e →
  (∀ k s, scores e !! k = Some s → ∃ d, denoms e !! k = Some d ∧ (1 ≤ d)%Z)
  ∧ (NoDup keys → list_to_set keys = dom (scores e) →
     scores e !! "TOTAL" = None →
     (∀ k s d, scores e !! k = Some s → denoms e !! k = Some d →
               is_Some (truediv s d)) →
     ∃ (m : gmap string F) (qs : list F),
       mean truediv fadd fzero keys e = Ok m
       ∧ Forall2 (λ k q, ∃ s d, scores e !! k = Some s ∧
                           denoms e !! k = Some d ∧ truediv s d = Some q)
                 keys qs
       ∧ (∀ k s, scores e !! k = Some s →
            ∃ d q, denoms e !! k = Some d ∧ truediv s d = Some q ∧
                   m !! k = Some q)
       ∧ m !! "TOTAL" = Some (fold_left fadd qs fzero)
       ∧ dom m = dom (scores e) ∪ {["TOTAL"]})
  ∧ (list_to_set keys = dom (scores e) →
     (∃ k s d, scores e !! k = Some s ∧ denoms e !! k = Some d ∧
               truediv s d = None) →
     mean truediv fadd fzero keys e = Raise OverflowError).
Proof.
  intros [Hsub Hpos]%reachable_counted_inv.
  pose proof (λ k s, counted_denominator e k s Hsub Hpos) as Hden.
  assert (∀ k, list_to_set keys = dom (scores e) → k ∈ keys →
            ∃ s d, scores e !! k = Some s ∧ denoms e !! k = Some d
                   ∧ (1 ≤ d)%Z
                   ∧ counter_get (scores e) k = s
                   ∧ counter_get (denoms e) k = d) as Hget.
  { intros k Hkeys Hk.
    assert (k ∈ dom (scores e)) as [s Hs]%elem_of_dom.
    { rewrite <- Hkeys. by apply elem_of_list_to_set. }
    destruct (Hden k s Hs) as (d & Hd & Hge).
    exists s, d. unfold counter_get. by rewrite Hs, Hd. }
  split_and!.
  - exact Hden.
  - intros Hnd Hkeys Htotal Hrep.
    destruct (mean_lookup truediv fadd fzero e keys Hnd)
      as (m & qs & Hm & HF & Hlook & Htot & Hdom).
    { intros k Hk. destruct (Hget k Hkeys Hk) as (s & d & Hs & Hd & Hge & -> & ->).
      split; [lia|by eapply Hrep]. }
    exists m, qs. split_and!; [done| | |done|by rewrite Hdom, Hkeys].
    + apply Forall2_same_length_lookup.
      split; [by eapply Forall2_length|].
      intros i k q Hk Hq.
      pose proof (Forall2_lookup_lr _ _ _ _ _ _ HF Hk Hq) as Hdiv.
      apply list_elem_of_lookup_2 in Hk.
      destruct (Hget k Hkeys Hk) as (s & d & Hs & Hd & Hge & Hs' & Hd').
      exists s, d. cbn beta in Hdiv. by rewrite Hs', Hd' in Hdiv.
    + intros k s Hs.
      assert (k ∈ keys) as Hk.
      { apply (elem_of_list_to_set (C:=gset string)).
        rewrite Hkeys. apply elem_of_dom. by eexists. }
      destruct (Hlook k Hk) as (q & Hq & Hmk); [congruence|].
      destruct (Hget k Hkeys Hk) as (s' & d & Hs' & Hd & Hge & Hcs & Hcd).
      rewrite Hcs, Hcd in Hq. exists d, q.
      by replace s with s' by congruence.
  - intros Hkeys (k & s & d & Hs & Hd & Hnone).
    assert (k ∈ keys) as Hk.
    { apply (elem_of_list_to_set (C:=gset string)).
      rewrite Hkeys. apply elem_of_dom. by eexists. }
    destruct (mean truediv fadd fzero keys e) as [m|x] eqn:Hm.
    + apply mean_Ok_inv in Hm as [qs Hqs].
      destruct (quotients_Ok_inv _ _ _ _ Hqs) as [Hfst HF].
      destruct (paired_values keys qs k Hfst HF Hk) as (q & _ & _ & Hq).
      unfold counter_get in Hq. rewrite Hs, Hd in Hq. cbn in Hq. congruence.
    + apply mean_Raise_inv, quotients_Raise_inv in Hm
        as (k' & Hk' & [[Hz _]|(_ & _ & ->)]); [|done].
      destruct (Hget k' Hkeys Hk') as (? & ? & _ & _ & ? & _ & ?). lia.
Qed.

(** Two criteria, one of them with a zero score, denominators omitted. *)
Lemma mean_of_reachable_witness :
  let e := mkEval ∅ {["q" := 4%Z; "r" := 0%Z]} {["q" := 1%Z; "r" := 1%Z]} in
  (∀ k s, scores e !! k = Some s → ∃ d, denoms e !! k = Some d ∧ (1 ≤ d)%Z)
  ∧ ∃ (m : gmap string QArith_base.Q) (qs : list QArith_base.Q),
      mean exact_truediv QArith_base.Qplus q_zero ["q"; "r"] e = Ok m
      ∧ Forall2 (λ k q, ∃ s d, scores e !! k = Some s ∧
                          denoms e !! k = Some d ∧ exact_truediv s d = Some q)
                ["q"; "r"] qs
      ∧ (∀ k s, scores e !! k = Some s →
           ∃ d q, denoms e !! k = Some d ∧ exact_truediv s d = Some q ∧
                  m !! k = Some q)
      ∧ m !! "TOTAL" = Some (fold_left QArith_base.Qplus qs q_zero)
      ∧ dom m = dom (scores e) ∪ {["TOTAL"]}.
Proof.
  intros e.
  destruct (mean_of_reachable exact_truediv QArith_base.Qplus q_zero e
              ["q"; "r"]) as (Hden & Hmean & _).
  { apply (reach_counted_init ∅ (Some {["q" := 4%Z; "r" := 0%Z]}) None);
      [done|by vm_compute]. }
  split; [exact Hden|]. apply Hmean.
  - apply (bool_decide_unpack _). by vm_compute.
  - apply (bool_decide_unpack _). by vm_compute.
  - by vm_compute.
  - intros k s d _ _. by eexists.
Defined.

End EvalFacts.

(** * Properties of simulate.py *)

Module SimulateFacts.
Import Dialogue Agents Simulate SimulateSpec.

Lemma constant_agent_responsive name reply starters :
  responsive (constant_agent name reply starters).
Proof. intros d. by eexists. Qed.

(** The loop runs [turns] times when no response raises, with enough
    fuel, and the agents alternate. *)
Lemma respond_loop_turns fuel a b turns d :
  responsive a → responsive b → Z.to_nat turns ≤ fuel →
  ∃ new, respond_loop fuel a b turns d = Some (Ok (d ++ new)) ∧
         length new = Z.to_nat turns ∧ alternating a b new.
Proof.
  intros Ha Hb. revert a b turns d Ha Hb.
  induction fuel as [|fuel IH]; intros a b turns d Ha Hb Hfuel.
  - exists []. cbn. rewrite bool_decide_false by lia.
    rewrite app_nil_r. split_and!; [done|lia|intros ? ? [=]].
  - cbn [respond_loop]. case_bool_decide as Hpos.
    + unfold respond. destruct (Ha d) as [cont ->]. cbn [mbind result_bind].
      cbn [mret result_ret].
      destruct (IH b a (turns - 1)%Z (add d (agent_name a) cont) Hb Ha)
        as (new & -> & Hlen & Halt); [lia|].
      exists (mkTurn (agent_name a) cont :: new). split_and!.
      * unfold add. by rewrite <- app_assoc.
      * cbn. rewrite Hlen. lia.
      * intros [|i] turn Hi.
        -- by injection Hi as <-.
        -- apply (Halt i) in Hi. rewrite Hi, Nat.even_succ, <- Nat.negb_even.
           by destruct (Nat.even i).
    + exists []. rewrite app_nil_r. split_and!; [done|cbn; lia|intros ? ? [=]].
Qed.

(** Without the starter step, or when the attribute is absent or is
    [None], the dialogue gains exactly [turns] response turns. *)
Lemma no_starter_turns a b turns prefix r :
  responsive a → responsive b →
  ∃ new, simulated_dialogue a b turns prefix false r = Some (Ok (prefix ++ new))
         ∧ length new = Z.to_nat turns ∧ alternating a b new.
Proof.
  intros Ha Hb. unfold simulated_dialogue.
  by apply respond_loop_turns.
Qed.

Lemma absent_starters_skipped a b turns prefix r :
  conversation_starters b = NoAttribute ∨ conversation_starters b = NoneValue →
  simulated_dialogue a b turns prefix true r
  = simulated_dialogue a b turns prefix false r.
Proof.
  intros Hb. unfold simulated_dialogue, starter_step, get_conversation_starters.
  by destruct Hb as [-> | ->].
Qed.

(** C4, at [turns = 0]: with the starter list [["X"]] the starter is
    injected all the same, so the dialogue gains one turn, not zero. *)
Lemma starter_at_zero_turns :
  simulated_dialogue (constant_agent "A" "hi" NoAttribute)
                     (constant_agent "B" "ho" (Sequence ["X"])) 0 [] true 0
  = Some (Ok [mkTurn "A" "X"]) ∧
  Z.of_nat (length [mkTurn "A" "X"]) ≠ 0%Z.
Proof. split; [reflexivity|discriminate]. Qed.

(** C4 (amended): for every turn count of at least 1 and agents whose
    responses do not raise, when [b] exposes the starter list [["X"]] the
    simulation with the starter step yields the prefix followed by a
    first turn with content ["X"] under [a]'s name, and the number of
    new turns, the starter included, equals the turn count; the turns
    after the starter come from [b] and [a] in alternation. *)
Theorem starter_opens a b turns prefix r :
  (1 ≤ turns)%Z → conversation_starters b = Sequence ["X"] →
  responsive a → responsive b →
  ∃ rest,
    simulated_dialogue a b turns prefix true r
    = Some (Ok (prefix ++ mkTurn (agent_name a) "X" :: rest)) ∧
    Z.of_nat (length (mkTurn (agent_name a) "X" :: rest)) = turns ∧
    alternating b a rest.
Proof.
  intros Hturns Hst Ha Hb.
  unfold simulated_dialogue, starter_step, get_conversation_starters.
  rewrite Hst. cbn [mbind result_bind choose_starter random_choice length].
  rewrite Nat.mod_1_r. cbn [lookup list_lookup mret result_ret try_except].
  destruct (respond_loop_turns (Z.to_nat (turns - 1)) b a (turns - 1)%Z
              (add prefix (agent_name a) "X") Hb Ha) as (rest & Hloop & Hlen & Halt);
    [lia|].
  exists rest. split_and!; [|cbn; lia|done].
  change (respond_loop (Z.to_nat (turns - 1)) b a (turns - 1)
            (add prefix (agent_name a) "X")
          = Some (Ok (prefix ++ mkTurn (agent_name a) "X" :: rest))).
  rewrite Hloop. unfold add. by rewrite <- app_assoc.
Qed.

Lemma starter_opens_witness :
  ∃ rest,
    simulated_dialogue (constant_agent "A" "hi" NoAttribute)
                       (constant_agent "B" "ho" (Sequence ["X"])) 3 [] true 7
    = Some (Ok ([] ++ mkTurn "A" "X" :: rest)) ∧
    Z.of_nat (length (mkTurn "A" "X" :: rest)) = 3%Z ∧
    alternating (constant_agent "B" "ho" (Sequence ["X"]))
                (constant_agent "A" "hi" NoAttribute) rest.
Proof.
  apply (starter_opens (constant_agent "A" "hi" NoAttribute)
                       (constant_agent "B" "ho" (Sequence ["X"])) 3 [] 7).
  - lia.
  - reflexivity.
  - apply constant_agent_responsive.
  - apply constant_agent_responsive.
Defined.

(** C5, at a peer whose [conversation_starters] is the empty list, with
    [turns = 2]: instead of skipping the starter step and producing two
    response turns, as it does without the starter step, the simulation
    raises [IndexError]; [random.choice] raises it on an empty sequence
    and the [except] clause does not name it.  The same happens for all
    agents, turn counts and prefixes. *)
Theorem empty_starters_not_skipped :
  simulated_dialogue (constant_agent "A" "hi" NoAttribute)
                     (constant_agent "B" "ho" (Sequence [])) 2 [] true 0
  = Some (Raise IndexError)
  ∧ simulated_dialogue (constant_agent "A" "hi" NoAttribute)
                       (constant_agent "B" "ho" (Sequence [])) 2 [] false 0
    = Some (Ok [mkTurn "A" "hi"; mkTurn "B" "ho"])
  ∧ ∀ a b turns prefix r,
      conversation_starters b = Sequence [] →
      simulated_dialogue a b turns prefix true r = Some (Raise IndexError).
Proof.
  split_and!; [reflexivity..|].
  intros a b turns prefix r Hb.
  unfold simulated_dialogue, starter_step, get_conversation_starters.
  by rewrite Hb.
Qed.

Lemma empty_starters_not_skipped_witness :
  simulated_dialogue (constant_agent "A" "hi" (Sequence ["Y"]))
                     (constant_agent "B" "ho" (Sequence []))
                     6 [mkTurn "B" "well"] true 5
  = Some (Raise IndexError).
Proof.
  apply (proj2 (proj2 empty_starters_not_skipped)). reflexivity.
Defined.

End SimulateFacts.

(** * Properties of the participant's evaluation in eval.py *)

Module ProtocolFacts.
Import Dialogue Agents Eval Protocol ProtocolSpec.

Section EvaluationAgent.
Variable ask : Character → Dialogue → string → string → result Dialogue.
Variable rating :
  Character → Dialogue → string → string → Z → Z → result Z.
Variable conjunction : gset string → string → string.

Lemma try_rating_not_ValueError participant d question lo hi key scs :
  try_rating rating participant d question lo hi key scs ≠ Raise ValueError.
Proof.
  unfold try_rating.
  destruct (rating participant d research_team question lo hi) as [v|[]];
    done.
Qed.

Lemma quality_ratings_not_ValueError participant other d qualities scs :
  quality_ratings rating participant other d qualities scs
  ≠ Raise ValueError.
Proof.
  revert scs. induction qualities as [|quality rest IH]; intros scs; [done|].
  cbn [quality_ratings].
  match goal with
  | |- context [try_rating ?r ?p ?d ?q ?lo ?hi ?k ?s] =>
      pose proof (try_rating_not_ValueError p d q lo hi k s) as Hne;
      destruct (try_rating r p d q lo hi k s) as [scs'|e]
  end.
  - apply IH.
  - cbn. congruence.
Qed.

Lemma init_default_denoms cmts scs :
  __init__ cmts (Some scs) None ≠ Raise ValueError.
Proof.
  unfold __init__. by rewrite decide_False by (rewrite dom_fmap_L; auto).
Qed.

Lemma bind_not_ValueError {A B} (m : result A) (f : A → result B) :
  m ≠ Raise ValueError → (∀ a, f a ≠ Raise ValueError) →
  m ≫= f ≠ Raise ValueError.
Proof.
  intros Hm Hf. destruct m as [a|e]; [apply Hf|].
  intros [= ->]. by apply Hm.
Qed.

Lemma last_item_not_ValueError (d : Dialogue) :
  last_item d ≠ Raise ValueError.
Proof. unfold last_item. by destruct (last d). Qed.

Lemma getitem_not_ValueError turn key : getitem turn key ≠ Raise ValueError.
Proof. unfold getitem. by repeat case_decide. Qed.

(** C7: provided the evaluation agent's [ask] does not itself raise
    [ValueError], [eval_by_participant] raises [ValueError] (the spec's
    PreconditionError) exactly when the participant's name and the
    other name are not both among the speakers of the dialogue; in
    particular it raises when neither name is among them. *)
Theorem eval_by_participant_precondition participant other dialogue :
  (∀ p d asker question, ask p d asker question ≠ Raise ValueError) →
  (eval_by_participant ask rating conjunction participant other dialogue
   = Raise ValueError
   ↔ ¬ (char_name participant ∈ speakers_of dialogue
        ∧ other ∈ speakers_of dialogue))
  ∧ (char_name participant ∉ speakers_of dialogue →
     other ∉ speakers_of dialogue →
     eval_by_participant ask rating conjunction participant other dialogue
     = Raise ValueError).
Proof.
  intros Hask. unfold eval_by_participant.
  case_decide as Hsub.
  - split; [split; [|done]|done].
    intros _ [H1 H2]. apply Hsub.
    intros x [->%elem_of_singleton| ->%elem_of_singleton]%elem_of_union;
      done.
  - assert (char_name participant ∈ speakers_of dialogue
            ∧ other ∈ speakers_of dialogue) as Hboth.
    { split; apply Hsub.
      - apply elem_of_union_l. by apply elem_of_singleton.
      - apply elem_of_union_r. by apply elem_of_singleton. }
    split; [split|].
    + intros Hraise. exfalso. revert Hraise.
      apply bind_not_ValueError; [apply Hask|intros d].
      apply bind_not_ValueError; [apply last_item_not_ValueError|intros t].
      apply bind_not_ValueError; [apply getitem_not_ValueError|intros c].
      apply bind_not_ValueError; [apply try_rating_not_ValueError|intros s].
      apply bind_not_ValueError;
        [apply quality_ratings_not_ValueError|intros s'].
      apply init_default_denoms.
    + intros Hn. by destruct Hn.
    + intros Hn _. by destruct Hboth as [? _].
Qed.
End EvaluationAgent.

Lemma eval_by_participant_precondition_witness :
  (eval_by_participant fixed_ask fixed_rating fixed_conjunction
     (mkCharacter "Bob") "Alice" [mkTurn "Alice" "hi"; mkTurn "Carol" "ho"]
   = Raise ValueError
   ↔ ¬ ("Bob" ∈ speakers_of [mkTurn "Alice" "hi"; mkTurn "Carol" "ho"]
        ∧ "Alice" ∈ speakers_of [mkTurn "Alice" "hi"; mkTurn "Carol" "ho"]))
  ∧ ("Bob" ∉ speakers_of [mkTurn "Alice" "hi"; mkTurn "Carol" "ho"] →
     "Alice" ∉ speakers_of [mkTurn "Alice" "hi"; mkTurn "Carol" "ho"] →
     eval_by_participant fixed_ask fixed_rating fixed_conjunction
       (mkCharacter "Bob") "Alice" [mkTurn "Alice" "hi"; mkTurn "Carol" "ho"]
     = Raise ValueError).
Proof.
  apply (eval_by_participant_precondition fixed_ask fixed_rating
           fixed_conjunction (mkCharacter "Bob") "Alice"
           [mkTurn "Alice" "hi"; mkTurn "Carol" "ho"]).
  intros p d asker question. unfold fixed_ask. discriminate.
Defined.

End ProtocolFacts.

(** * Properties of the knowledge-lookup agents of argubots.py *)

Module ArgubotsFacts.
Import Dialogue Argubots ArgubotsSpec.

Section Kialo.
Variable closest_claims : string → nat → string → option Z → list string.
Variable cons : string → list string.
Variable pros : string → list string.
Variable random_chain : nat → list string.

Lemma nonempty_length (d : Dialogue) : d ≠ [] → length d ≠ 0.
Proof. by destruct d. Qed.

Lemma str_repeat_written s n : str_repeat s n = written_times n s.
Proof. induction n as [|n IH]; [done|]. cbn. by rewrite IH. Qed.

Lemma join_spaced parts : join " " parts = spaced parts.
Proof.
  unfold join. induction parts as [|p [|p' rest] IH]; [done..|].
  change (String.concat " " (p :: p' :: rest))
    with (p +:+ " " +:+ String.concat " " (p' :: rest)).
  by rewrite IH.
Qed.

Lemma weighted_turns_from (selected : string → bool) (d : Dialogue) n :
  omap (λ it : nat * Turn,
          if selected (speaker it.2)
          then Some (str_repeat (content it.2) (it.1 + 1)) else None)
       (imap (λ i turn, (n + i, turn)) d)
  = weighted_contents selected (S n) d.
Proof.
  revert n. induction d as [|turn d IH]; intros n; [done|].
  rewrite imap_cons.
  replace (imap ((λ i turn, (n + i, turn)) ∘ S) d)
    with (imap (λ i turn, (S n + i, turn)) d)
    by (apply imap_ext; intros; cbn; f_equal; lia).
  change (weighted_contents selected (S n) (turn :: d))
    with ((if selected (speaker turn)
           then [written_times (S n) (content turn)] else [])
          ++ weighted_contents selected (S (S n)) d).
  rewrite <- IH. cbn [omap list_omap fst snd].
  replace (n + 0 + 1) with (S n) by lia. rewrite str_repeat_written.
  by destruct (selected (speaker turn)).
Qed.

Lemma user_turns_text_eq self_name d :
  user_turns_text self_name d = user_query_text self_name d.
Proof.
  unfold user_turns_text, user_query_text, weighted_turns.
  rewrite join_spaced. f_equal.
  pose proof (weighted_turns_from
                (λ spk : string, bool_decide (spk ≠ self_name)) d 0) as H.
  exact H.
Qed.

Lemma bot_turns_text_eq self_name d :
  bot_turns_text self_name d = bot_query_text self_name d.
Proof.
  unfold bot_turns_text, bot_query_text, weighted_turns.
  rewrite join_spaced. f_equal.
  pose proof (weighted_turns_from
                (λ spk : string, bool_decide (spk = self_name)) d 0) as H.
  exact H.
Qed.

Lemma empty_length {A} (l : list A) :
  bool_decide (length l = 0) = bool_decide (l = []).
Proof. by destruct l. Qed.

(** The neighbours [AkikiAgent.response] ends up with, and the calls
    it makes to get them. *)
Lemma akiki_unfold self_name d r0 r1 r2 log :
  d ≠ [] →
  let user_text := user_turns_text self_name d in
  let bot_text := bot_turns_text self_name d in
  let first := closest_claims user_text 3 "has_cons" (Some 8%Z) in
  let retry_bot := bool_decide (length first = 0) && bool_decide (1 < length d) in
  let second := if retry_bot
                then closest_claims bot_text 3 "has_pros" (Some 8%Z)
                else first in
  let retry_user := bool_decide (length second = 0) in
  let third := if retry_user
               then closest_claims user_text 3 "has_cons" None
               else second in
  AkikiAgent_response closest_claims cons pros random_chain
    self_name d r0 r1 r2 log
  = ((neighbor ← random_choice r1 third;
      random_choice r2
        (if truthy (cons neighbor) then cons neighbor else pros neighbor)),
     log ++ [mkQuery user_text 3 "has_cons" (Some 8%Z)]
         ++ (if retry_bot then [mkQuery bot_text 3 "has_pros" (Some 8%Z)]
             else [])
         ++ (if retry_user then [mkQuery user_text 3 "has_cons" None]
             else [])).
Proof.
  intros Hd. cbn zeta. unfold AkikiAgent_response.
  rewrite decide_False by by apply nonempty_length.
  fold (user_turns_text self_name d). fold (bot_turns_text self_name d).
  unfold mbind, service_bind, call_closest_claims, lift, mret, service_ret.
  destruct (bool_decide (length _ = 0) && bool_decide (1 < length d));
    destruct (bool_decide (length _ = 0));
    rewrite <- ?app_assoc; cbn [app];
    destruct (random_choice r1 _); rewrite ?app_nil_r; reflexivity.
Qed.

(** C8: on a non-empty dialogue, when the claims service yields no
    candidate, neither agent returns a reply: [KialoAgent.response]
    fails its assertion, and [AkikiAgent.response], whose queries all
    come back empty down to the fallback without threshold, fails in
    [random.choice], which requires a non-empty sequence. *)
Theorem empty_candidates_fail :
  (∀ d turn r0 r1 r2 log,
     last d = Some turn →
     closest_claims (content turn) 3 "has_cons" None = [] →
     (KialoAgent_response closest_claims cons random_chain d r0 r1 r2 log).1
     = Raise AssertionError)
  ∧ (∀ self_name d r0 r1 r2 log,
       d ≠ [] →
       closest_claims (user_turns_text self_name d) 3 "has_cons" (Some 8%Z)
       = [] →
       (1 < length d →
        closest_claims (bot_turns_text self_name d) 3 "has_pros" (Some 8%Z)
        = []) →
       closest_claims (user_turns_text self_name d) 3 "has_cons" None = [] →
       (AkikiAgent_response closest_claims cons pros random_chain
          self_name d r0 r1 r2 log).1
       = Raise IndexError).
Proof.
  split.
  - intros d turn r0 r1 r2 log Hlast Hnone. unfold KialoAgent_response.
    rewrite decide_False by (destruct d; done).
    unfold mbind, service_bind, call_closest_claims, lift, mret, service_ret,
      last_item.
    rewrite Hlast. change (getitem turn "content") with (Ok (content turn)).
    cbn iota. rewrite Hnone. reflexivity.
  - intros self_name d r0 r1 r2 log Hd Hfirst Hbot Hlast.
    rewrite akiki_unfold by done. cbn [fst]. rewrite Hfirst, Hlast.
    cbn [length]. rewrite (bool_decide_true (0 = 0)) by done.
    cbn [andb]. destruct (bool_decide (1 < length d)) eqn:Hlen.
    + apply bool_decide_eq_true in Hlen. rewrite Hbot by done. reflexivity.
    + reflexivity.
Qed.

(** C9: on a non-empty dialogue [AkikiAgent.response] calls the claims
    service in this order: first with the user turns, the kind
    [has_cons] and the threshold 8; then, only if that gave nothing and
    the dialogue has more than one turn, with the bot turns, the kind
    [has_pros] and the threshold 8; then, if there is still no
    neighbour, with the user turns, [has_cons] and no threshold.  Three
    claims are asked for each time.  The user turns are the turns whose
    speaker is not the agent, the bot turns those whose speaker is the
    agent; either text holds the content of each such turn, written as
    many times as the turn's position in the dialogue, with a space
    between the turns. *)
Theorem akiki_query_order self_name d r0 r1 r2 log :
  d ≠ [] →
  let user_text := user_query_text self_name d in
  let bot_text := bot_query_text self_name d in
  let first := closest_claims user_text 3 "has_cons" (Some 8%Z) in
  let retry_bot := bool_decide (first = []) && bool_decide (1 < length d) in
  let second := if retry_bot
                then closest_claims bot_text 3 "has_pros" (Some 8%Z)
                else first in
  let retry_user := bool_decide (second = []) in
  (AkikiAgent_response closest_claims cons pros random_chain
     self_name d r0 r1 r2 log).2
  = log ++ [mkQuery user_text 3 "has_cons" (Some 8%Z)]
        ++ (if retry_bot then [mkQuery bot_text 3 "has_pros" (Some 8%Z)]
            else [])
        ++ (if retry_user then [mkQuery user_text 3 "has_cons" None]
            else []).
Proof.
  intros Hd. cbn zeta. rewrite akiki_unfold by done. cbn [snd].
  rewrite <- !user_turns_text_eq, <- !bot_turns_text_eq.
  by rewrite !empty_length.
Qed.
End Kialo.

Lemma empty_candidates_fail_witness :
  (KialoAgent_response no_claims no_arguments no_chain
     [mkTurn "Ann" "hi"] 0 0 0 []).1 = Raise AssertionError
  ∧ (AkikiAgent_response no_claims no_arguments no_arguments no_chain
       "Akiki" [mkTurn "Ann" "hi"] 0 0 0 []).1 = Raise IndexError.
Proof.
  destruct (empty_candidates_fail no_claims no_arguments no_arguments no_chain)
    as [Hkialo Hakiki].
  split.
  - apply (Hkialo [mkTurn "Ann" "hi"] (mkTurn "Ann" "hi")); reflexivity.
  - apply Hakiki; [discriminate|reflexivity|reflexivity|reflexivity].
Defined.

(** The corpus answers only the query without threshold; Ann speaks the
    first and the third turn, the agent Akiki the second, so all three
    queries are made. *)
Lemma akiki_query_order_witness :
  (AkikiAgent_response fallback_claims one_con no_arguments no_chain
     "Akiki" [mkTurn "Ann" "hi"; mkTurn "Akiki" "no"; mkTurn "Ann" "so"]
     0 0 0 []).2
  = [mkQuery "hi sososo" 3 "has_cons" (Some 8%Z);
     mkQuery "nono" 3 "has_pros" (Some 8%Z);
     mkQuery "hi sososo" 3 "has_cons" None].
Proof.
  apply (akiki_query_order fallback_claims one_con no_arguments no_chain
           "Akiki" [mkTurn "Ann" "hi"; mkTurn "Akiki" "no"; mkTurn "Ann" "so"]
           0 0 0 []).
  discriminate.
Defined.

End ArgubotsFacts.

(** * Further properties of dialogue.py *)

Module DialogueMore.
Import Dialogue DialogueSpec DialogueFacts.

(** ** [add], [rename] and the operators *)

Lemma rename_fold old new d acc :
  fold_left
    (λ d turn, add d (if decide (speaker turn = old) then new else speaker turn)
                     (content turn)) d acc
  = acc ++ (renamed old new <$> d).
Proof.
  revert acc. induction d as [|turn d IH]; intros acc; cbn.
  - by rewrite app_nil_r.
  - rewrite IH. unfold add. by rewrite <- app_assoc.
Qed.

Lemma rename_fmap d old new : rename d old new = renamed old new <$> d.
Proof. unfold rename. by rewrite rename_fold. Qed.

(** X1: [rename] keeps the number of turns, their order and their
    contents; each turn of [old] is relabelled [new] and the other
    speakers are kept, so that [old] no longer speaks when the two names
    differ. *)
Theorem rename_effect d old new :
  length (rename d old new) = length d
  ∧ content <$> rename d old new = content <$> d
  ∧ (∀ i, speaker <$> (rename d old new !! i)
          = (λ turn, if decide (speaker turn = old) then new else speaker turn)
              <$> (d !! i))
  ∧ (old ≠ new → old ∉ speakers_of (rename d old new)).
Proof.
  rewrite rename_fmap. split_and!.
  - by rewrite length_fmap.
  - rewrite <- list_fmap_compose. by apply list_fmap_ext.
  - intros i. unfold Dialogue in *. rewrite list_lookup_fmap.
    by destruct (d !! i).
  - intros Hne. unfold speakers_of.
    rewrite elem_of_list_to_set, <- list_fmap_compose, list_elem_of_fmap.
    intros (turn & Hold & _). cbn in Hold. by case_decide.
Qed.

Lemma rename_effect_witness :
  "Ann" ∉ speakers_of (rename [mkTurn "Ann" "hi"; mkTurn "Bob" "ho"] "Ann" "Eve").
Proof.
  apply (proj2 (proj2 (proj2
    (rename_effect [mkTurn "Ann" "hi"; mkTurn "Bob" "ho"] "Ann" "Eve")))).
  discriminate.
Defined.

(** X2: renaming to a name that nobody in the dialogue bears can be
    undone by renaming back. *)
Theorem rename_round_trip d old new :
  new ∉ speakers_of d → rename (rename d old new) new old = d.
Proof.
  intros Hfresh. rewrite !rename_fmap, <- list_fmap_compose.
  rewrite <- (list_fmap_id d) at 2. apply list_fmap_ext.
  intros i [s c] Hi. unfold renamed. cbn.
  assert (s ≠ new) as Hs.
  { intros ->. apply Hfresh. unfold speakers_of.
    rewrite elem_of_list_to_set, list_elem_of_fmap.
    exists (mkTurn new c). split; [done|]. by eapply list_elem_of_lookup_2. }
  cbn [speaker content].
  destruct (decide (s = old)) as [->|Hold]; cbn [speaker content].
  - by rewrite decide_True.
  - by rewrite decide_False.
Qed.

Lemma rename_round_trip_witness :
  rename (rename [mkTurn "Ann" "hi"; mkTurn "Bob" "ho"] "Ann" "Eve") "Eve" "Ann"
  = [mkTurn "Ann" "hi"; mkTurn "Bob" "ho"].
Proof. apply rename_round_trip. by vm_compute. Defined.

(** X3: [add] appends exactly one turn and changes none: the result is
    one turn longer, its last item [[-1]] is the new turn, and the slice
    [[:-1]] gives the receiver back. *)
Theorem add_then_subscript d spk cont :
  length (add d spk cont) = S (length d)
  ∧ __getitem__ (add d spk cont) (At (-1)) = Ok (ATurn (mkTurn spk cont))
  ∧ __getitem__ (add d spk cont) (Slice None (Some (-1)%Z)) = Ok (ASlice d).
Proof.
  unfold add, Dialogue in *. split_and!.
  - rewrite length_app. cbn. lia.
  - unfold __getitem__. unfold Dialogue in *. rewrite length_app. cbn [length].
    rewrite (bool_decide_true (-1 < 0)%Z) by lia.
    rewrite bool_decide_true by lia.
    replace (Z.to_nat (-1 + Z.of_nat (length d + 1))) with (length d) by lia.
    rewrite lookup_app_r, Nat.sub_diag by lia. reflexivity.
  - unfold __getitem__, slice_bound. unfold Dialogue in *.
    rewrite length_app. cbn [length].
    rewrite bool_decide_true by lia.
    replace (Z.to_nat (Z.max (-1 + Z.of_nat (length d + 1)) 0) - Z.to_nat 0)
      with (length d) by lia.
    change (Z.to_nat 0) with 0. by rewrite drop_0, take_app_length.
Qed.

(** X4: an integer subscript raises [IndexError] exactly when it lies
    outside the range from [-len] to [len - 1]; inside that range the
    negative subscript [i - len] names the same turn as [i]. *)
Theorem subscript_bounds (d : Dialogue) (i : Z) :
  (__getitem__ d (At i) = Raise IndexError
   ↔ (i < - Z.of_nat (length d) ∨ Z.of_nat (length d) ≤ i)%Z)
  ∧ ((0 ≤ i < Z.of_nat (length d))%Z →
     ∃ turn, __getitem__ d (At i) = Ok (ATurn turn)
             ∧ __getitem__ d (At (i - Z.of_nat (length d))) = Ok (ATurn turn)).
Proof.
  unfold __getitem__. unfold Dialogue in *. split.
  - destruct (decide (i < 0)%Z) as [Hneg|Hneg].
    + rewrite (bool_decide_true (i < 0)%Z) by done.
      destruct (decide (0 ≤ i + Z.of_nat (length d) < Z.of_nat (length d))%Z)
        as [Hin|Hout].
      * rewrite bool_decide_true by done.
        destruct (lookup_lt_is_Some_2 d (Z.to_nat (i + Z.of_nat (length d))))
          as [turn ->]; [lia|]. split; [done|lia].
      * rewrite bool_decide_false by done. split; [intros _; lia|done].
    + rewrite (bool_decide_false (i < 0)%Z) by done.
      destruct (decide (0 ≤ i < Z.of_nat (length d))%Z) as [Hin|Hout].
      * rewrite bool_decide_true by done.
        destruct (lookup_lt_is_Some_2 d (Z.to_nat i)) as [turn ->]; [lia|].
        split; [done|lia].
      * rewrite bool_decide_false by done. split; [intros _; lia|done].
  - intros Hi. destruct (lookup_lt_is_Some_2 d (Z.to_nat i)) as [turn Ht]; [lia|].
    exists turn. rewrite (bool_decide_false (i < 0)%Z) by lia.
    rewrite bool_decide_true by lia. rewrite Ht.
    rewrite (bool_decide_true (i - _ < 0)%Z) by lia.
    rewrite bool_decide_true by lia.
    replace (i - Z.of_nat (length d) + Z.of_nat (length d))%Z with i by lia.
    by rewrite Ht.
Qed.

Lemma subscript_bounds_witness :
  ∃ turn,
    __getitem__ [mkTurn "Ann" "hi"; mkTurn "Bob" "ho"] (At 1) = Ok (ATurn turn)
    ∧ __getitem__ [mkTurn "Ann" "hi"; mkTurn "Bob" "ho"] (At (-1))
      = Ok (ATurn turn).
Proof.
  apply (proj2 (subscript_bounds [mkTurn "Ann" "hi"; mkTurn "Bob" "ho"] 1)).
  cbn. lia.
Defined.

(** X5: for every integer [k], also a negative one or one beyond the
    ends, the slices [[:k]] and [[k:]] split the dialogue: concatenated
    with [+] they give it back. *)
Theorem slices_split (d : Dialogue) (k : Z) :
  ∃ front back,
    __getitem__ d (Slice None (Some k)) = Ok (ASlice front)
    ∧ __getitem__ d (Slice (Some k) None) = Ok (ASlice back)
    ∧ __add__ front (ADialogue back) = Ok d.
Proof.
  unfold __getitem__, slice_bound, __add__. unfold Dialogue in *. eexists _, _.
  split_and!; [reflexivity..|]. f_equal.
  change (Z.to_nat 0) with 0. rewrite drop_0, Nat.sub_0_r.
  set (n := Z.to_nat (if bool_decide (k < 0)%Z
                      then Z.max (k + Z.of_nat (length d)) 0
                      else Z.min k (Z.of_nat (length d)))).
  rewrite (take_ge (drop n d)) by (rewrite length_drop; lia).
  apply take_drop.
Qed.

Lemma mjoin_replicate_copies (d : Dialogue) k :
  mjoin (replicate k d) = copies k d.
Proof.
  induction k as [|k IH]; [done|].
  change (mjoin (replicate (S k) d)) with (d ++ mjoin (replicate k d)).
  by rewrite IH.
Qed.

(** X6: [d * n] raises [OverflowError] for a count [n] outside the range
    of the index type, from [-2^63] to [2^63 - 1]; within it, a count
    below one gives the empty dialogue, a count whose copies would make
    [2^63] turns or more raises [MemoryError], and any other count gives
    [n] copies of the turns of [d], one after the other; so [d * 1] is
    [d] and [d * 2] is [d] followed by [d]; and [n * d] is the same as
    [d * n]. *)
Theorem mul_repeats (d : Dialogue) (n : Z) :
  (Z.of_nat (length d) < 2 ^ 63)%Z →
  ((n < - 2 ^ 63 ∨ 2 ^ 63 ≤ n)%Z → __mul__ d n = Raise OverflowError)
  ∧ ((- 2 ^ 63 ≤ n ≤ 0)%Z → __mul__ d n = Ok [])
  ∧ ((0 < n < 2 ^ 63)%Z → (Z.of_nat (length d) * n < 2 ^ 63)%Z →
     __mul__ d n = Ok (copies (Z.to_nat n) d))
  ∧ ((0 < n < 2 ^ 63)%Z → (2 ^ 63 ≤ Z.of_nat (length d) * n)%Z →
     __mul__ d n = Raise MemoryError)
  ∧ __mul__ d 1 = Ok d
  ∧ __mul__ d 2 = (if bool_decide (Z.of_nat (length d) * 2 < 2 ^ 63)%Z
                   then Ok (d ++ d) else Raise MemoryError)
  ∧ __rmul__ d n = __mul__ d n.
Proof.
  intros Hlen.
  assert (∀ k : Z, (- 2 ^ 63 ≤ k < 2 ^ 63)%Z →
            __mul__ d k
            = if bool_decide (length d = 0 ∨ (k ≤ 0)%Z) then Ok []
              else if bool_decide (2 ^ 63 ≤ Z.of_nat (length d) * k)%Z
                   then Raise MemoryError
                   else Ok (copies (Z.to_nat k) d)) as Hin.
  { intros k Hk. unfold __mul__, tuple_mul, maxsize.
    rewrite bool_decide_false by lia.
    case_bool_decide as Hz; [done|].
    assert (0 < k)%Z as Hpos by lia.
    rewrite mjoin_replicate_copies.
    pose proof (Z.div_lt_upper_bound (2 ^ 63 - 1) k (Z.of_nat (length d)) Hpos).
    pose proof (Z.div_le_lower_bound (2 ^ 63 - 1) k (Z.of_nat (length d)) Hpos).
    repeat case_bool_decide; try done; lia. }
  split_and!.
  - intros Hn. unfold __mul__, tuple_mul, maxsize.
    by rewrite bool_decide_true by lia.
  - intros Hn. rewrite Hin by lia. by rewrite bool_decide_true by (right; lia).
  - intros Hn Hfit. rewrite Hin by lia.
    case_bool_decide as Hz.
    + destruct Hz as [Hz|Hz]; [|lia].
      apply nil_length_inv in Hz as ->. clear.
      induction (Z.to_nat n) as [|k IH]; [done|]. cbn. by rewrite <- IH.
    + by rewrite bool_decide_false by lia.
  - intros Hn Hbig. rewrite Hin by lia.
    rewrite bool_decide_false by lia. by rewrite bool_decide_true by lia.
  - rewrite Hin by lia. case_bool_decide as Hz.
    + destruct Hz as [Hz|Hz]; [|lia]. by apply nil_length_inv in Hz as ->.
    + rewrite bool_decide_false by lia.
      change (Z.to_nat 1) with 1. cbn. unfold Dialogue. by rewrite app_nil_r.
  - rewrite Hin by lia. case_bool_decide as Hz.
    + destruct Hz as [Hz|Hz]; [|lia]. apply nil_length_inv in Hz as ->.
      by rewrite bool_decide_true by (cbn; lia).
    + case_bool_decide; case_bool_decide; try lia; [done|].
      change (Z.to_nat 2) with 2. cbn. unfold Dialogue. by rewrite app_nil_r.
  - done.
Qed.

Lemma mul_repeats_witness :
  __mul__ [mkTurn "Ann" "hi"] 3
  = Ok [mkTurn "Ann" "hi"; mkTurn "Ann" "hi"; mkTurn "Ann" "hi"]
  ∧ __mul__ [mkTurn "Ann" "hi"] (2 ^ 64) = Raise OverflowError
  ∧ __mul__ [mkTurn "Ann" "hi"; mkTurn "Bob" "ho"] 1
    = Ok [mkTurn "Ann" "hi"; mkTurn "Bob" "ho"].
Proof.
  split_and!.
  - apply (proj1 (proj2 (proj2 (mul_repeats [mkTurn "Ann" "hi"] 3
             ltac:(by vm_compute)))));
      by vm_compute.
  - apply (proj1 (mul_repeats [mkTurn "Ann" "hi"] (2 ^ 64)
             ltac:(by vm_compute))).
    right. by vm_compute.
  - apply (mul_repeats [mkTurn "Ann" "hi"; mkTurn "Bob" "ho"] 0
             ltac:(by vm_compute)).
Defined.

(** X7: concatenation with [+] is associative, the empty dialogue is
    neutral on both sides, and a right operand that is no Dialogue
    raises [ValueError]. *)
Theorem add_operator (d1 d2 d3 : Dialogue) :
  (d12 ← __add__ d1 (ADialogue d2); __add__ d12 (ADialogue d3))
  = (d23 ← __add__ d2 (ADialogue d3); __add__ d1 (ADialogue d23))
  ∧ __add__ d1 (ADialogue []) = Ok d1
  ∧ __add__ [] (ADialogue d1) = Ok d1
  ∧ __add__ d1 NotADialogue = Raise ValueError.
Proof.
  cbn. unfold Dialogue in *. by rewrite app_assoc, app_nil_r.
Qed.

(** ** [format_as_messages]: defaults, framing and compression *)

Lemma others_users run :
  Forall (λ m, is_user m = true) run → others run = [].
Proof.
  induction 1 as [|m run Hm _ IH]; [done|].
  unfold others in *. rewrite filter_cons_False; [done|].
  cbn beta. congruence.
Qed.

Lemma runs_clear l :
  Forall (λ m, is_user m = false) l → runs None l = l.
Proof.
  induction 1 as [|m l Hm _ IH]; [done|]. cbn [runs]. by rewrite Hm, IH.
Qed.

Lemma runs_clear_tail cur l tail :
  Forall (λ m, is_user m = false) tail →
  runs cur (l ++ tail) = runs cur l ++ tail.
Proof.
  intros Htail. revert cur. induction l as [|m l IH]; intros cur.
  - cbn [app runs]. destruct Htail as [|m tail Hm Htail].
    + by rewrite app_nil_r.
    + cbn [runs]. by rewrite Hm, runs_clear.
  - cbn [app runs]. destruct (is_user m); [apply IH|].
    by rewrite IH, <- app_assoc.
Qed.

Lemma merged_is_user cs : is_user (merged cs) = true.
Proof. reflexivity. Qed.

(** What one sweep yields, by induction on the number of messages. *)
Lemma runs_structure n l :
  length l ≤ n →
  separated (runs None l)
  ∧ (starts_clear l → starts_clear (runs None l))
  ∧ others (runs None l) = others l
  ∧ length (runs None l) ≤ length l.
Proof.
  revert l. induction n as [|n IH]; intros l Hlen.
  { destruct l; [|cbn in Hlen; lia]. cbn. split_and!; done. }
  destruct l as [|m rest]; [cbn; split_and!; done|].
  cbn in Hlen. destruct (is_user m) eqn:Hm.
  - destruct (span_users rest) as (run & post & -> & Hrun & Hpost).
    rewrite length_app in Hlen.
    destruct (IH post) as (Hsep & Hclear & Hoth & Hle); [lia|].
    cbn [runs]. rewrite Hm. cbn [default app]. rewrite runs_run by done.
    split_and!.
    + cbn [separated]. split; [|done].
      specialize (Hclear Hpost).
      destruct (runs None post) as [|m' R]; [done|].
      intros [_ Hm']. rewrite (Hclear m') in Hm'; done.
    + intros Hl. specialize (Hl m eq_refl). congruence.
    + unfold others in *.
      rewrite filter_cons_False by (cbn beta; by rewrite merged_is_user).
      rewrite Hoth. rewrite filter_cons_False by (cbn beta; congruence).
      rewrite filter_app. fold (others run).
      rewrite (others_users run Hrun). reflexivity.
    + cbn [length]. rewrite length_app. lia.
  - destruct (IH rest) as (Hsep & Hclear & Hoth & Hle); [lia|].
    cbn [runs]. rewrite Hm. cbn [flush app]. split_and!.
    + cbn [separated]. split; [|done].
      destruct (runs None rest); [done|]. intros [Hm' _]. congruence.
    + intros _ m' [= <-]. done.
    + unfold others in *. rewrite !filter_cons_True by done. by rewrite Hoth.
    + cbn [length]. lia.
Qed.

(** X8: with at most two names among the speakers and the speaker to
    generate for, and no keyword given, neither marking nor compression
    is switched on: the messages are the turns one for one, [assistant]
    for the given speaker and [user] otherwise, contents unchanged. *)
Theorem two_party_passthrough d spk :
  size (speakers_of d ∪ {[spk]}) ≤ 2 →
  format_as_messages d spk no_kwargs = Some (Ok (plain_message spk <$> d)).
Proof.
  intros Hsize. unfold format_as_messages. cbn [speaker_names compress no_kwargs].
  cbn [default]. rewrite bool_decide_false by lia.
  rewrite turn_messages_plain. cbn. by rewrite app_nil_r.
Qed.

Lemma two_party_passthrough_witness :
  format_as_messages [mkTurn "Ann" "hi"; mkTurn "Bob" "ho"; mkTurn "Ann" "so"]
    "Bob" no_kwargs
  = Some (Ok (plain_message "Bob"
                <$> [mkTurn "Ann" "hi"; mkTurn "Bob" "ho"; mkTurn "Ann" "so"])).
Proof. apply two_party_passthrough. by vm_compute. Defined.

(** X9: the compression pass ends on every list of messages, and in
    what it returns no two neighbouring messages are both user messages. *)
Theorem compress_separates msgs :
  ∃ out, compress_pass msgs = Some out ∧ separated out.
Proof.
  exists (runs None msgs). split; [apply compress_pass_runs|].
  by destruct (runs_structure (length msgs) msgs) as (? & _).
Qed.

(** X10: the compression pass never touches a message that is not a
    user message: the assistant, system and tool messages come out
    unchanged and in the same order; the list never grows, and a list
    without user messages is returned as it is. *)
Theorem compress_keeps_others msgs :
  ∃ out,
    compress_pass msgs = Some out
    ∧ others out = others msgs
    ∧ length out ≤ length msgs
    ∧ (Forall (λ m, is_user m = false) msgs → out = msgs).
Proof.
  exists (runs None msgs). split; [apply compress_pass_runs|].
  destruct (runs_structure (length msgs) msgs) as (_ & _ & Hoth & Hlen); [done|].
  split_and!; [done..|]. apply runs_clear.
Qed.

Lemma compress_keeps_others_witness :
  ∃ out,
    compress_pass [mkMessage "system" "be kind" None;
                   mkMessage "assistant" "hello" None] = Some out
    ∧ out = [mkMessage "system" "be kind" None;
             mkMessage "assistant" "hello" None].
Proof.
  destruct (compress_keeps_others [mkMessage "system" "be kind" None;
                                   mkMessage "assistant" "hello" None])
    as (out & Hout & _ & _ & Hsame).
  exists out. split; [done|]. apply Hsame. by repeat constructor.
Defined.

Lemma leading_clear kw : Forall (λ m, is_user m = false) (leading kw).
Proof. unfold leading. destruct (system kw); by repeat constructor. Qed.

Lemma trailing_clear kw : Forall (λ m, is_user m = false) (trailing kw).
Proof.
  unfold trailing. destruct (system_last kw), (tool kw); by repeat constructor.
Qed.

(** X11: when the contents are not marked, the result is the leading
    system message if one is given, then the turns (compressed if
    compression is on), then the trailing system message and the tool
    message with its name, if given: compression neither moves nor
    merges the system and tool messages. *)
Theorem framing_survives_compression d spk kw :
  default (bool_decide (2 < size (speakers_of d ∪ {[spk]}))) (speaker_names kw)
  = false →
  format_as_messages d spk kw
  = Some (Ok (leading kw
              ++ (if default (bool_decide (2 < size (speakers_of d ∪ {[spk]})))
                             (compress kw)
                  then runs None (plain_message spk <$> d)
                  else plain_message spk <$> d)
              ++ trailing kw)).
Proof.
  intros Hnames. unfold format_as_messages. rewrite Hnames.
  rewrite turn_messages_plain. fold (leading kw).
  change (match system_last kw with Some s => _ | None => _ end
          ++ match tool kw with Some t => _ | None => _ end)
    with (trailing kw).
  destruct (default _ (compress kw)); [|done].
  rewrite compress_pass_runs. cbn [fmap option_fmap option_map]. do 2 f_equal.
  pose proof (leading_clear kw) as Hlead.
  destruct (leading kw) as [|m lead] eqn:Hl.
  - cbn [app]. apply runs_clear_tail, trailing_clear.
  - rewrite runs_app.
    + rewrite (runs_clear (m :: lead)) by done. f_equal.
      apply runs_clear_tail, trailing_clear.
    + intros x Hx. rewrite Forall_forall in Hlead. apply Hlead.
      rewrite last_lookup in Hx. by eapply list_elem_of_lookup_2.
    + by left.
Qed.

Lemma framing_survives_compression_witness :
  format_as_messages [mkTurn "Ann" "hi"; mkTurn "Cy" "ho"] "Bob"
    (mkKwargs (Some "be kind") (Some "now answer") (Some false) (Some true)
              (Some "42") (Some "calc"))
  = Some (Ok ([mkMessage "system" "be kind" None]
              ++ runs None (plain_message "Bob"
                              <$> [mkTurn "Ann" "hi"; mkTurn "Cy" "ho"])
              ++ [mkMessage "system" "now answer" None;
                  mkMessage "tool" "42" (Some "calc")])).
Proof.
  apply (framing_survives_compression
           [mkTurn "Ann" "hi"; mkTurn "Cy" "ho"] "Bob"
           (mkKwargs (Some "be kind") (Some "now answer") (Some false)
                     (Some true) (Some "42") (Some "calc"))).
  reflexivity.
Defined.

End DialogueMore.

(** * Further properties of the aggregator of eval.py *)

Module EvalMore.
Import Eval EvalSpec EvalFacts.

Lemma init_some_inv cmts scs dns e :
  __init__ cmts (Some scs) (Some dns) = Ok e → e = mkEval cmts scs dns.
Proof. unfold __init__. cbn. case_decide; [done|]. by intros [= <-]. Qed.

Lemma add_unfold e1 e2 :
  __add__ e1 e2
  = __init__ (merge_comments (comments e1) (comments e2))
             (Some (counter_add (scores e1) (scores e2)))
             (Some (counter_add (denoms e1) (denoms e2))).
Proof.
  unfold __add__.
  by rewrite fold_left_app, !fold_extend_comments_map, merge_comments_empty_l.
Qed.

(** X12: whenever [+] returns, [+=] computes the same Eval; and when
    [+] raises, it raises [ValueError] and [+=] on the same operands
    yields an Eval whose scores and denominators have different keys. *)
Theorem iadd_agrees_with_add e1 e2 :
  (∀ e, __add__ e1 e2 = Ok e → __iadd__ e1 e2 = e)
  ∧ (∀ x, __add__ e1 e2 = Raise x →
       x = ValueError
       ∧ dom (scores (__iadd__ e1 e2)) ≠ dom (denoms (__iadd__ e1 e2))).
Proof.
  rewrite add_unfold, iadd_eq. split.
  - intros e He. by apply init_some_inv in He as ->.
  - intros x. unfold __init__. cbn. case_decide as Hdom; [|done].
    by intros [= <-].
Qed.

Lemma iadd_agrees_with_add_witness :
  __iadd__ (eval_q 2) (eval_q 3) = mkEval ∅ {["q" := 5%Z]} {["q" := 2%Z]}.
Proof. apply (proj1 (iadd_agrees_with_add (eval_q 2) (eval_q 3))). by vm_compute. Defined.

Lemma counter_add_get a b k :
  positive a → positive b →
  counter_get (counter_add a b) k = (counter_get a k + counter_get b k)%Z.
Proof.
  intros Ha Hb. unfold counter_get. rewrite counter_add_pos_lookup by done.
  destruct (a !! k), (b !! k); cbn; lia.
Qed.

(** X13: for Evals with agreeing key sets and positive values the sum
    exists, is again such an Eval, and under every key holds the sum of
    the two scores and the sum of the two denominators, a missing key
    counting as zero, and the comments of the first followed by those of
    the second. *)
Theorem add_sums_per_key e1 e2 :
  well_formed e1 → well_formed e2 →
  ∃ e,
    __add__ e1 e2 = Ok e ∧ well_formed e
    ∧ ∀ k,
        counter_get (scores e) k
        = (counter_get (scores e1) k + counter_get (scores e2) k)%Z
        ∧ counter_get (denoms e) k
          = (counter_get (denoms e1) k + counter_get (denoms e2) k)%Z
        ∧ comments_get (comments e) k
          = comments_get (comments e1) k ++ comments_get (comments e2) k.
Proof.
  intros H1 H2. eexists. split; [by apply add_ok|].
  split; [by apply sum_well_formed|].
  destruct H1 as [_ Hs1 Hd1], H2 as [_ Hs2 Hd2]. intros k. cbn.
  rewrite !counter_add_get by done. by rewrite comments_get_merge.
Qed.

Lemma add_sums_per_key_witness :
  ∃ e,
    __add__ (eval_q 2) (eval_q 3) = Ok e ∧ well_formed e
    ∧ ∀ k,
        counter_get (scores e) k
        = (counter_get (scores (eval_q 2)) k
           + counter_get (scores (eval_q 3)) k)%Z
        ∧ counter_get (denoms e) k
          = (counter_get (denoms (eval_q 2)) k
             + counter_get (denoms (eval_q 3)) k)%Z
        ∧ comments_get (comments e) k
          = comments_get (comments (eval_q 2)) k
            ++ comments_get (comments (eval_q 3)) k.
Proof.
  apply (add_sums_per_key (eval_q 2) (eval_q 3));
    apply eval_q_well_formed; lia.
Defined.

Lemma counter_add_empty_r a : positive a → counter_add a ∅ = a.
Proof.
  intros Ha. apply map_eq. intros k.
  rewrite counter_add_pos_lookup, lookup_empty by (done || apply map_Forall_empty).
  by destruct (a !! k).
Qed.

Lemma counter_add_empty_l a : positive a → counter_add ∅ a = a.
Proof.
  intros Ha. rewrite counter_add_comm by (done || apply map_Forall_empty).
  by apply counter_add_empty_r.
Qed.

Lemma merge_comments_empty_r m : merge_comments m ∅ = m.
Proof.
  apply map_eq. intros i. unfold merge_comments.
  rewrite lookup_union_with, lookup_empty. by destruct (m !! i).
Qed.

(** X14: the empty evaluation [Eval()] is neutral for Evals with
    positive values: adding it on either side with [+] gives the Eval
    back, and so does [+=], in particular [e_sum = Eval(); e_sum += e]. *)
Theorem empty_eval_neutral e :
  well_formed e →
  __init__ ∅ None None = Ok eval_empty
  ∧ __add__ e eval_empty = Ok e ∧ __add__ eval_empty e = Ok e
  ∧ __iadd__ e eval_empty = e ∧ __iadd__ eval_empty e = e.
Proof.
  intros [Hk Hs Hd]. rewrite !add_unfold, !iadd_eq. cbn.
  rewrite !counter_add_empty_r, !counter_add_empty_l by done.
  rewrite merge_comments_empty_r, merge_comments_empty_l.
  destruct e as [c s d]. cbn in *.
  split_and!; try done; by apply init_ok.
Qed.

Lemma empty_eval_neutral_witness :
  __init__ ∅ None None = Ok eval_empty
  ∧ __add__ (eval_q 4) eval_empty = Ok (eval_q 4)
  ∧ __add__ eval_empty (eval_q 4) = Ok (eval_q 4)
  ∧ __iadd__ (eval_q 4) eval_empty = eval_q 4
  ∧ __iadd__ eval_empty (eval_q 4) = eval_q 4.
Proof. apply (empty_eval_neutral (eval_q 4)). apply eval_q_well_formed. lia. Defined.

Section MeanMore.
Context {F : Type}.
Variable truediv : Z → Z → option F.
Variable fadd : F → F → F.
Variable fzero : F.
Variable repr_mean : gmap string F → string.


Lemma well_formed_nonzero e k :
  well_formed e → k ∈ dom (scores e) → counter_get (denoms e) k ≠ 0%Z.
Proof.
  intros [Hk _ Hd] Hin. rewrite Hk in Hin. apply elem_of_dom in Hin as [d Hd'].
  unfold counter_get. rewrite Hd'. apply Hd in Hd'. cbn in *. lia.
Qed.

(** X15: the mean after a merge divides the summed score by the summed
    count, so a criterion that only one of the two Evals has scored
    keeps its mean: missing values are ignored, not counted as zero
    scores.  [keys] are the keys of the merged scores in the order of the
    dict; the quotients are supposed to have float values. *)
Theorem mean_ignores_missing e1 e2 keys :
  well_formed e1 → well_formed e2 →
  scores e1 !! "TOTAL" = None → scores e2 !! "TOTAL" = None →
  NoDup keys → list_to_set keys = dom (scores (__iadd__ e1 e2)) →
  (∀ k, k ∈ keys →
     is_Some (truediv ((default 0%Z (scores e1 !! k) + default 0%Z (scores e2 !! k))%Z)
                      ((default 0%Z (denoms e1 !! k) + default 0%Z (denoms e2 !! k))%Z))) →
  ∃ m,
    mean truediv fadd fzero keys (__iadd__ e1 e2) = Ok m
    ∧ (∀ k, k ∈ dom (scores e1) ∪ dom (scores e2) →
         ∃ q,
           truediv ((default 0%Z (scores e1 !! k) + default 0%Z (scores e2 !! k))%Z)
                   ((default 0%Z (denoms e1 !! k) + default 0%Z (denoms e2 !! k))%Z)
           = Some q
           ∧ m !! k = Some q)
    ∧ (∀ k s d,
         scores e1 !! k = Some s → denoms e1 !! k = Some d →
         scores e2 !! k = None →
         ∃ q, truediv s d = Some q ∧ m !! k = Some q).
Proof.
  intros H1 H2 Ht1 Ht2 Hnd Hkeys Hrep.
  pose proof (sum_well_formed (merge_comments (comments e1) (comments e2))
                e1 e2 H1 H2) as H12.
  rewrite iadd_eq in *. cbn [scores] in Hkeys.
  destruct H1 as [Hk1 Hs1 Hd1], H2 as [Hk2 Hs2 Hd2].
  assert (∀ k, k ∈ keys ↔ k ∈ dom (scores e1) ∪ dom (scores e2)) as Hin.
  { intros k. rewrite <- (elem_of_list_to_set (C:=gset string)), Hkeys.
    by rewrite counter_add_dom. }
  destruct (mean_lookup truediv fadd fzero
              (mkEval (merge_comments (comments e1) (comments e2))
                      (counter_add (scores e1) (scores e2))
                      (counter_add (denoms e1) (denoms e2))) keys Hnd)
    as (m & qs & Hm & _ & Hlook & _ & _).
  { intros k Hk. split.
    - apply (well_formed_nonzero _ k H12). cbn [scores].
      rewrite counter_add_dom by done. by apply Hin.
    - cbn [scores denoms]. rewrite !counter_add_get by done.
      unfold counter_get. by apply Hrep. }
  exists m. split; [done|].
  assert (∀ k, k ∈ dom (scores e1) ∪ dom (scores e2) →
            ∃ q,
              truediv ((default 0%Z (scores e1 !! k) + default 0%Z (scores e2 !! k))%Z)
                      ((default 0%Z (denoms e1 !! k) + default 0%Z (denoms e2 !! k))%Z)
              = Some q
              ∧ m !! k = Some q) as Hall.
  { intros k Hk. destruct (Hlook k) as (q & Hq & Hmk).
    - by apply Hin.
    - intros ->. apply elem_of_union in Hk as [Hk|Hk];
        apply elem_of_dom in Hk as [? Hk]; congruence.
    - cbn [scores denoms] in Hq. rewrite !counter_add_get in Hq by done.
      unfold counter_get in Hq. by exists q. }
  split; [done|]. intros k s d Hs Hd Hnone.
  destruct (Hall k) as (q & Hq & Hmk).
  { apply elem_of_union_l, elem_of_dom. by eexists. }
  assert (denoms e2 !! k = None) as Hnone'.
  { apply not_elem_of_dom. rewrite <- Hk2. by apply not_elem_of_dom. }
  rewrite Hs, Hd, Hnone, Hnone' in Hq. cbn in Hq.
  rewrite !Z.add_0_r in Hq. by exists q.
Qed.


End MeanMore.

Lemma mean_ignores_missing_witness :
  ∃ m,
    mean exact_truediv QArith_base.Qplus q_zero ["q"]
         (__iadd__ (eval_q 4) eval_empty) = Ok m
    ∧ (∀ k, k ∈ dom (scores (eval_q 4)) ∪ dom (scores eval_empty) →
         ∃ q,
           exact_truediv
             ((default 0%Z (scores (eval_q 4) !! k)
              + default 0%Z (scores eval_empty !! k))%Z)
             ((default 0%Z (denoms (eval_q 4) !! k)
              + default 0%Z (denoms eval_empty !! k))%Z)
           = Some q
           ∧ m !! k = Some q)
    ∧ (∀ k s d,
         scores (eval_q 4) !! k = Some s → denoms (eval_q 4) !! k = Some d →
         scores eval_empty !! k = None →
         ∃ q, exact_truediv s d = Some q ∧ m !! k = Some q).
Proof.
  apply (mean_ignores_missing exact_truediv QArith_base.Qplus q_zero
           (eval_q 4) eval_empty ["q"]).
  - apply eval_q_well_formed. lia.
  - split; cbn; [done|apply map_Forall_empty..].
  - by vm_compute.
  - by vm_compute.
  - apply (bool_decide_unpack _). by vm_compute.
  - apply (bool_decide_unpack _). by vm_compute.
  - intros k _. by eexists.
Defined.


End EvalMore.

(** * Further properties of the evaluation routines of eval.py *)

Module ProtocolMore.
Import Dialogue Agents Eval Protocol EvalSpec EvalFacts ProtocolSpec ProtocolFacts.

Section EvaluationAgent.
Variable ask : Character → Dialogue → string → string → result Dialogue.
Variable rating :
  Character → Dialogue → string → string → Z → Z → result Z.
Variable conjunction : gset string → string → string.
Variable zeroval_default : string.

Lemma try_rating_ok participant d question lo hi key scs scs' :
  try_rating rating participant d question lo hi key scs = Ok scs' →
  scs' = match rated (rating participant d research_team question lo hi) with
         | Some v => <[key := v]> scs
         | None => scs
         end.
Proof.
  unfold try_rating.
  destruct (rating participant d research_team question lo hi) as [v|[]];
    cbn; by intros [= <-].
Qed.

Lemma quality_ratings_ok participant other d qualities scs scs' :
  (∀ q, q ∈ qualities → scs !! q = None) → NoDup qualities →
  quality_ratings rating participant other d qualities scs = Ok scs' →
  ∀ key,
    scs' !! key
    = if decide (key ∈ qualities)
      then rated (rating participant d research_team
                         (quality_question other key) 1 5)
      else scs !! key.
Proof.
  revert scs. induction qualities as [|quality rest IH]; intros scs Hnew Hnd.
  - cbn. intros [= <-] key. by rewrite decide_False by apply not_elem_of_nil.
  - apply NoDup_cons in Hnd as [Hq Hnd]. cbn [quality_ratings].
    fold (quality_question other quality).
    destruct (try_rating rating participant d (quality_question other quality)
                1 5 quality scs) as [scs1|] eqn:Ht; [|done].
    cbn. apply try_rating_ok in Ht. intros Hrest key.
    assert (∀ q, q ∈ rest → scs1 !! q = None) as Hnew1.
    { intros q Hin. rewrite Ht. destruct (rated _).
      - rewrite lookup_insert_ne; [apply Hnew; by right|]. by intros <-.
      - apply Hnew. by right. }
    rewrite (IH scs1 Hnew1 Hnd Hrest).
    destruct (decide (key ∈ rest)) as [Hin|Hout].
    + by rewrite decide_True by by right.
    + destruct (decide (key = quality)) as [->|Hne].
      * rewrite decide_True by by left. rewrite Ht.
        destruct (rated _); [by rewrite lookup_insert_eq|].
        apply Hnew. by left.
      * rewrite decide_False by (intros [->|?]%elem_of_cons; done).
        rewrite Ht. destruct (rated _); [by rewrite lookup_insert_ne|done].
Qed.

(** Closed decidable goals and hypotheses, settled by evaluation. *)
Ltac by_compute :=
  match goal with
  | |- ?P => apply (bool_decide_unpack P); vm_compute; exact I
  end.
Ltac by_absurd H :=
  let T := type of H in
  let Hb := fresh in
  assert (Hb : bool_decide T = true) by (by apply bool_decide_eq_true_2);
  vm_compute in Hb; discriminate Hb.

Lemma bind_Ok_inv {A B} (m : result A) (f : A → result B) b :
  m ≫= f = Ok b → ∃ a, m = Ok a ∧ f a = Ok b.
Proof. destruct m as [a|]; [|done]. intros H. by exists a. Qed.

Lemma last_item_ok (d : Dialogue) turn :
  last_item d = Ok turn → last d = Some turn.
Proof. unfold last_item. destruct (last d); by intros [= <-]. Qed.

(** X17: when [eval_by_participant] returns, its Eval holds the
    participant's answer to the warm-up question as the one "overview"
    comment, and under each of the four score keys the rating the
    participant gave to that key's question, asked after the warm-up
    exchange, if that rating call returned, and nothing if it raised
    [ValueError]; every denominator is 1. *)
Theorem participant_result participant other dialogue e :
  eval_by_participant ask rating conjunction participant other dialogue = Ok e →
  ∃ warmup d answer,
    ask participant [] research_team warmup = Ok d ∧ last d = Some answer
    ∧ comments e = {["overview" := [(char_name participant, content answer)]]}
    ∧ scores e !! "engaged"
      = rated (rating participant d research_team (engaged_question other) 1 5)
    ∧ (∀ quality, quality ∈ ["informed"; "intelligent"; "moral"] →
         scores e !! quality
         = rated (rating participant d research_team
                         (quality_question other quality) 1 5))
    ∧ dom (scores e) ⊆ {["engaged"; "informed"; "intelligent"; "moral"]}
    ∧ denoms e = (λ _, 1%Z) <$> scores e.
Proof.
  intros Heval. unfold eval_by_participant in Heval.
  case_decide as Hsub; [done|].
  apply bind_Ok_inv in Heval as (d & Hask & Heval).
  apply bind_Ok_inv in Heval as (answer & Hlast%last_item_ok & Heval).
  apply bind_Ok_inv in Heval as (cont & [= <-] & Heval).
  apply bind_Ok_inv in Heval as (scs1 & Ht%try_rating_ok & Heval).
  apply bind_Ok_inv in Heval as (scs2 & Hq & Hinit).
  apply init_inv in Hinit as (Hc & Hs & _ & Hd). cbn in Hs, Hd.
  fold (engaged_question other) in Ht.
  assert (∀ q, q ∈ ["informed"; "intelligent"; "moral"] → scs1 !! q = None)
    as Hnew.
  { intros q Hin. rewrite Ht.
    destruct (rated _); [rewrite lookup_insert_ne|]; try done.
    intros <-. by_absurd Hin. }
  assert (NoDup ["informed"; "intelligent"; "moral"]) as Hnd by by_compute.
  pose proof (quality_ratings_ok _ _ _ _ _ _ Hnew Hnd Hq) as Hkeys.
  eexists _, d, answer. rewrite Hs, Hd, Hc. split_and!; try done.
  - rewrite Hkeys, decide_False by (intros Hin; by_absurd Hin). rewrite Ht.
    destruct (rated _); [by rewrite lookup_insert_eq|done].
  - intros quality Hin. by rewrite Hkeys, decide_True.
  - intros key [v Hv]%elem_of_dom. rewrite Hkeys in Hv.
    case_decide as Hin.
    + repeat (apply elem_of_cons in Hin as [->|Hin]); try by_compute.
      by apply elem_of_nil in Hin.
    + rewrite Ht in Hv. destruct (rated _); [|done].
      destruct (decide (key = "engaged")) as [->|Hne]; [by_compute|].
      by rewrite lookup_insert_ne in Hv.
Qed.

Lemma try_rating_range participant d question lo hi key scs scs' :
  rating_in_range rating →
  map_Forall (λ _ v, (lo ≤ v ≤ hi)%Z) scs →
  try_rating rating participant d question lo hi key scs = Ok scs' →
  map_Forall (λ _ v, (lo ≤ v ≤ hi)%Z) scs'.
Proof.
  intros Hrange Hscs ->%try_rating_ok.
  destruct (rating participant d research_team question lo hi) as [v|] eqn:Hr;
    cbn; [|done].
  apply map_Forall_insert_2; [|done]. by eapply Hrange.
Qed.

Lemma quality_ratings_range participant other d qualities scs scs' :
  rating_in_range rating →
  map_Forall (λ _ v, (1 ≤ v ≤ 5)%Z) scs →
  quality_ratings rating participant other d qualities scs = Ok scs' →
  map_Forall (λ _ v, (1 ≤ v ≤ 5)%Z) scs'.
Proof.
  intros Hrange. revert scs.
  induction qualities as [|quality rest IH]; intros scs Hscs.
  - cbn. by intros [= <-].
  - cbn [quality_ratings].
    intros (scs1 & Ht & Hrest)%bind_Ok_inv.
    apply (IH scs1); [|done]. by eapply try_rating_range.
Qed.

Lemma default_denoms_well_formed cmts scs lo hi e :
  (0 < lo)%Z → map_Forall (λ _ v, (lo ≤ v ≤ hi)%Z) scs →
  __init__ cmts (Some scs) None = Ok e →
  well_formed e ∧ comments e = cmts ∧ scores e = scs.
Proof.
  intros Hlo Hscs (Hc & Hs & Hdom & Hd)%init_inv. cbn in Hs, Hd.
  split_and!; [split|..]; try done.
  - rewrite Hs. intros k v Hv. apply Hscs in Hv. cbn in *. lia.
  - rewrite Hd. intros k v. rewrite lookup_fmap_Some. by intros (? & <- & _).
Qed.

(** X18: when the observer's evaluation returns, its Eval holds the
    observer's answer to the warm-up question as the one "mindopening"
    comment.  The rating is asked after that answer, in the range 1 to
    10, with the caller's question or, when none is given, with "How
    skilled is [other] at helping others become more open-minded?"; the
    score "skilled" holds the value that the rating call returned, and
    is absent when the call raised [ValueError]; the denominators are 1
    for the scores present. *)
Theorem observer_result observer other dialogue question e :
  eval_by_observer ask rating conjunction zeroval_default
    observer other dialogue question = Ok e →
  let asked :=
    match question with
    | Some q => q
    | None =>
        "How skilled is " +:+ other
        +:+ " at helping others become more open-minded?"
    end in
  ∃ warmup d answer,
    ask observer [] research_team warmup = Ok d ∧ last d = Some answer
    ∧ comments e = {["mindopening" := [(char_name observer, content answer)]]}
    ∧ ((∃ v, rating observer d research_team asked 1 10 = Ok v
             ∧ scores e = {["skilled" := v]}
             ∧ denoms e = {["skilled" := 1%Z]})
       ∨ (rating observer d research_team asked 1 10 = Raise ValueError
          ∧ scores e = ∅ ∧ denoms e = ∅)).
Proof.
  intros Heval. cbn zeta. unfold eval_by_observer in Heval.
  apply bind_Ok_inv in Heval as (d & Hask & Heval).
  apply bind_Ok_inv in Heval as (answer & Hlast%last_item_ok & Heval).
  apply bind_Ok_inv in Heval as (cont & [= <-] & Heval).
  apply bind_Ok_inv in Heval as (scs1 & Ht & Hinit).
  apply init_inv in Hinit as (Hc & Hs & _ & Hd). cbn in Hs, Hd.
  eexists _, d, answer. rewrite Hs, Hd, Hc.
  split_and!; [done..|].
  unfold try_rating in Ht. revert Ht.
  destruct (rating observer d research_team _ 1 10) as [v|x]; intros Ht.
  - left. exists v. cbn in Ht. injection Ht as <-.
    split_and!; [done|done|].
    by rewrite insert_empty, map_fmap_singleton.
  - right. destruct x; cbn in Ht; try done. injection Ht as <-.
    split_and!; [done|done|]. by rewrite fmap_empty.
Qed.

(** X19: when [rating] keeps to the range it is asked for, the two
    evaluations of a dialogue are Evals with agreeing key sets and
    positive values, the participant's scores lie between 1 and 5 and
    the observer's between 1 and 10, and their sum with [+], as taken
    for every trial, exists and is again such an Eval, with the comments
    "overview" and "mindopening". *)
Theorem trial_evals_add participant observer other dialogue question e1 e2 :
  rating_in_range rating →
  eval_by_participant ask rating conjunction participant other dialogue
  = Ok e1 →
  eval_by_observer ask rating conjunction zeroval_default
    observer other dialogue question = Ok e2 →
  well_formed e1 ∧ well_formed e2
  ∧ map_Forall (λ _ v, (1 ≤ v ≤ 5)%Z) (scores e1)
  ∧ map_Forall (λ _ v, (1 ≤ v ≤ 10)%Z) (scores e2)
  ∧ ∃ e, Eval.__add__ e1 e2 = Ok e ∧ well_formed e
         ∧ dom (comments e) = {["overview"; "mindopening"]}.
Proof.
  intros Hrange H1 H2.
  unfold eval_by_participant in H1. case_decide as Hsub; [done|].
  apply bind_Ok_inv in H1 as (d1 & _ & H1).
  apply bind_Ok_inv in H1 as (a1 & _ & H1).
  apply bind_Ok_inv in H1 as (c1 & _ & H1).
  apply bind_Ok_inv in H1 as (s1 & Ht1 & H1).
  apply bind_Ok_inv in H1 as (s2 & Hq1 & Hinit1).
  apply try_rating_range in Ht1; [|done|apply map_Forall_empty].
  apply quality_ratings_range in Hq1; [|done..].
  apply (default_denoms_well_formed _ _ 1 5) in Hinit1 as (Hwf1 & Hc1 & Hs1);
    [|lia|done].
  unfold eval_by_observer in H2.
  apply bind_Ok_inv in H2 as (d2 & _ & H2).
  apply bind_Ok_inv in H2 as (a2 & _ & H2).
  apply bind_Ok_inv in H2 as (c2 & _ & H2).
  apply bind_Ok_inv in H2 as (s3 & Ht2 & Hinit2).
  apply try_rating_range in Ht2; [|done|apply map_Forall_empty].
  apply (default_denoms_well_formed _ _ 1 10) in Hinit2 as (Hwf2 & Hc2 & Hs2);
    [|lia|done].
  rewrite Hs1, Hs2. split_and!; try done.
  eexists. split; [by apply add_ok|]. split; [by apply sum_well_formed|].
  cbn. unfold merge_comments. rewrite Hc1, Hc2.
  apply set_eq. intros k. rewrite elem_of_dom, lookup_union_with.
  rewrite elem_of_union, !elem_of_singleton.
  destruct (decide (k = "overview")) as [->|Hk1].
  { rewrite lookup_singleton_eq. split; [by left|].
    intros _. by destruct (_ !! _). }
  rewrite (lookup_singleton_ne "overview") by done.
  destruct (decide (k = "mindopening")) as [->|Hk2].
  { rewrite lookup_singleton_eq. split; [by right|by eexists]. }
  rewrite lookup_singleton_ne by done. cbn.
  split; [by intros [? [=]]|by intros [?|?]].
Qed.
End EvaluationAgent.

Lemma participant_result_witness :
  ∃ e warmup d answer,
    fixed_ask (mkCharacter "Bob") [] research_team warmup = Ok d
    ∧ last d = Some answer
    ∧ comments e = {["overview" := [("Bob", content answer)]]}
    ∧ scores e !! "engaged"
      = rated (fixed_rating (mkCharacter "Bob") d research_team
                 (engaged_question "Alice") 1 5)
    ∧ (∀ quality, quality ∈ ["informed"; "intelligent"; "moral"] →
         scores e !! quality
         = rated (fixed_rating (mkCharacter "Bob") d research_team
                    (quality_question "Alice" quality) 1 5))
    ∧ dom (scores e) ⊆ {["engaged"; "informed"; "intelligent"; "moral"]}
    ∧ denoms e = (λ _, 1%Z) <$> scores e.
Proof.
  eexists.
  apply (participant_result fixed_ask fixed_rating fixed_conjunction
           (mkCharacter "Bob") "Alice"
           [mkTurn "Alice" "hi"; mkTurn "Bob" "ho"]).
  vm_compute. reflexivity.
Defined.

Lemma observer_result_witness :
  ∃ warmup d answer,
    fixed_ask judge [] research_team warmup = Ok d ∧ last d = Some answer
    ∧ comments (mkEval {["mindopening" := [("Judge Wise", "It went well.")]]}
                       {["skilled" := 1%Z]} {["skilled" := 1%Z]})
      = {["mindopening" := [(char_name judge, content answer)]]}
    ∧ ((∃ v,
          lowest_rating judge d research_team
            "How skilled is Alice at helping others become more open-minded?"
            1 10 = Ok v
          ∧ scores (mkEval {["mindopening" := [("Judge Wise", "It went well.")]]}
                           {["skilled" := 1%Z]} {["skilled" := 1%Z]})
            = {["skilled" := v]}
          ∧ denoms (mkEval {["mindopening" := [("Judge Wise", "It went well.")]]}
                           {["skilled" := 1%Z]} {["skilled" := 1%Z]})
            = {["skilled" := 1%Z]})
       ∨ (lowest_rating judge d research_team
            "How skilled is Alice at helping others become more open-minded?"
            1 10 = Raise ValueError
          ∧ scores (mkEval {["mindopening" := [("Judge Wise", "It went well.")]]}
                           {["skilled" := 1%Z]} {["skilled" := 1%Z]})
            = ∅
          ∧ denoms (mkEval {["mindopening" := [("Judge Wise", "It went well.")]]}
                           {["skilled" := 1%Z]} {["skilled" := 1%Z]})
            = ∅)).
Proof.
  apply (observer_result fixed_ask lowest_rating fixed_conjunction "nobody"
           judge "Alice" [mkTurn "Alice" "hi"] None).
  by vm_compute.
Defined.

Lemma lowest_rating_in_range : rating_in_range lowest_rating.
Proof.
  intros p d asker q lo hi v. unfold lowest_rating.
  case_bool_decide; [|done]. intros [= <-]. lia.
Qed.

Lemma trial_evals_add_witness :
  ∃ e1 e2,
    well_formed e1 ∧ well_formed e2
    ∧ map_Forall (λ _ v, (1 ≤ v ≤ 5)%Z) (scores e1)
    ∧ map_Forall (λ _ v, (1 ≤ v ≤ 10)%Z) (scores e2)
    ∧ ∃ e, Eval.__add__ e1 e2 = Ok e ∧ well_formed e
           ∧ dom (comments e) = {["overview"; "mindopening"]}.
Proof.
  eexists _, _.
  apply (trial_evals_add fixed_ask lowest_rating fixed_conjunction "nobody"
           (mkCharacter "Bob") judge "Alice"
           [mkTurn "Alice" "hi"; mkTurn "Bob" "ho"] None).
  - apply lowest_rating_in_range.
  - vm_compute. reflexivity.
  - vm_compute. reflexivity.
Defined.

End ProtocolMore.

(** * Further properties of simulate.py *)

Module SimulateMore.
Import Dialogue Agents Simulate SimulateSpec SimulateFacts.

(** What the loop has done when it returns a dialogue. *)
Lemma respond_loop_inv fuel a b turns d d' :
  respond_loop fuel a b turns d = Some (Ok d') →
  ∃ new, d' = d ++ new ∧ length new = Z.to_nat turns ∧ alternating a b new.
Proof.
  revert a b turns d. induction fuel as [|fuel IH]; intros a b turns d;
    cbn [respond_loop]; case_bool_decide as Hpos; try done.
  - intros [= <-]. exists []. rewrite app_nil_r.
    split_and!; [done|cbn; lia|intros ? ? [=]].
  - unfold respond. destruct (response a d) as [cont|]; [|done].
    cbn [mbind result_bind mret result_ret].
    intros (new & -> & Hlen & Halt)%IH.
    exists (mkTurn (agent_name a) cont :: new). split_and!.
    + unfold add. by rewrite <- app_assoc.
    + cbn. rewrite Hlen. lia.
    + intros [|i] turn Hi.
      * by injection Hi as <-.
      * apply (Halt i) in Hi. rewrite Hi, Nat.even_succ, <- Nat.negb_even.
        by destruct (Nat.even i).
  - intros [= <-]. exists []. rewrite app_nil_r.
    split_and!; [done|cbn; lia|intros ? ? [=]].
Qed.

(** The three ways the starter step can end. *)
Lemma starter_cases a b turns prefix starter r :
  simulated_dialogue a b turns prefix starter r
  = respond_loop (Z.to_nat turns) a b turns prefix
  ∨ (∃ cont,
       simulated_dialogue a b turns prefix starter r
       = respond_loop (Z.to_nat (turns - 1)) b a (turns - 1)
           (add prefix (agent_name a) cont))
  ∨ ∃ e, simulated_dialogue a b turns prefix starter r = Some (Raise e).
Proof.
  unfold simulated_dialogue. destruct starter; [|by left].
  unfold starter_step, get_conversation_starters.
  destruct (conversation_starters b) as [| |l]; [by left..|].
  cbn [mbind result_bind choose_starter].
  destruct (random_choice r l) as [cont|e].
  - right. left. by exists cont.
  - cbn. destruct (starter_caught e); [by left|right; right; by eexists].
Qed.

Lemma speakers_of_app (d1 d2 : Dialogue) :
  speakers_of (d1 ++ d2) = speakers_of d1 ∪ speakers_of d2.
Proof. unfold speakers_of. by rewrite fmap_app, list_to_set_app_L. Qed.

Lemma speakers_of_cons turn (d : Dialogue) :
  speakers_of (turn :: d) = {[speaker turn]} ∪ speakers_of d.
Proof. reflexivity. Qed.

Lemma simulation_inv a b turns prefix starter r d :
  simulated_dialogue a b turns prefix starter r = Some (Ok d) →
  ∃ new,
    d = prefix ++ new
    ∧ (length new = Z.to_nat turns ∨ ((turns ≤ 0)%Z ∧ length new = 1))
    ∧ ((2 ≤ turns)%Z →
       agent_name a ∈ speakers_of new ∧ agent_name b ∈ speakers_of new)
    ∧ ((turns ≤ 1)%Z → speakers_of new ⊆ {[agent_name a]}).
Proof.
  destruct (starter_cases a b turns prefix starter r)
    as [-> |[[cont ->]|[e ->]]]; [| |done].
  - intros (new & -> & Hlen & Halt)%respond_loop_inv.
    exists new. split_and!; [done|by left|..].
    + intros Hturns.
      destruct new as [|t0 [|t1 new]]; [cbn in Hlen; lia..|].
      pose proof (Halt 0 t0 eq_refl) as H0.
      pose proof (Halt 1 t1 eq_refl) as H1. cbn in H0, H1.
      rewrite !speakers_of_cons, H0, H1.
      split; [apply elem_of_union_l|apply elem_of_union_r, elem_of_union_l];
        by apply elem_of_singleton.
    + intros Hturns.
      destruct new as [|t0 [|t1 new]]; [|    |cbn in Hlen; lia].
      * intros x Hx. by apply not_elem_of_empty in Hx.
      * pose proof (Halt 0 t0 eq_refl) as H0. cbn in H0.
        rewrite speakers_of_cons, H0. intros x Hx.
        apply elem_of_union in Hx as [Hx|Hx]; [done|].
        by apply not_elem_of_empty in Hx.
  - intros (new & -> & Hlen & Halt)%respond_loop_inv.
    exists (mkTurn (agent_name a) cont :: new). split_and!.
    + unfold add. by rewrite <- app_assoc.
    + cbn [length]. destruct (decide (turns ≤ 0)%Z); [right|left]; lia.
    + intros Hturns. destruct new as [|t0 new]; [cbn in Hlen; lia|].
      pose proof (Halt 0 t0 eq_refl) as H0. cbn in H0.
      rewrite !speakers_of_cons, H0. cbn [speaker].
      split; [apply elem_of_union_l|apply elem_of_union_r, elem_of_union_l];
        by apply elem_of_singleton.
    + intros Hturns. destruct new as [|t0 new]; [|cbn in Hlen; lia].
      rewrite speakers_of_cons. cbn [speaker]. intros x Hx.
      apply elem_of_union in Hx as [Hx|Hx]; [done|].
      by apply not_elem_of_empty in Hx.
Qed.

(** X20: a simulation that returns has only appended to the prefix; the
    new turns are as many as [turns] (none for a count below one),
    except that a starter is injected even when [turns] is below one;
    and with two turns or more both agents have spoken, while with one
    turn or less nobody but the first agent has. *)
Theorem simulation_shape a b turns prefix starter r d :
  simulated_dialogue a b turns prefix starter r = Some (Ok d) →
  ∃ new,
    d = prefix ++ new
    ∧ (length new = Z.to_nat turns ∨ ((turns ≤ 0)%Z ∧ length new = 1))
    ∧ ((2 ≤ turns)%Z →
       agent_name a ∈ speakers_of new ∧ agent_name b ∈ speakers_of new)
    ∧ ((turns ≤ 1)%Z → speakers_of new ⊆ {[agent_name a]}).
Proof. apply simulation_inv. Qed.

Lemma simulation_shape_witness :
  ∃ new,
    [mkTurn "B" "well"; mkTurn "A" "X"; mkTurn "B" "ho"; mkTurn "A" "hi"]
    = [mkTurn "B" "well"] ++ new
    ∧ (length new = Z.to_nat 3 ∨ ((3 ≤ 0)%Z ∧ length new = 1))
    ∧ ((2 ≤ 3)%Z → "A" ∈ speakers_of new ∧ "B" ∈ speakers_of new)
    ∧ ((3 ≤ 1)%Z → speakers_of new ⊆ {["A"]}).
Proof.
  apply (simulation_shape (constant_agent "A" "hi" NoAttribute)
           (constant_agent "B" "ho" (Sequence ["X"])) 3
           [mkTurn "B" "well"] true 0).
  reflexivity.
Defined.

(** X21: when the starter step is off, or the peer has no
    [conversation_starters] attribute, or the attribute is [None], and
    no response raises, the simulation returns the
    prefix followed by exactly [turns] response turns (none for a count
    below one), spoken by the two agents in alternation, the first agent
    first. *)
Theorem skipped_starter_turns a b turns prefix starter r :
  responsive a → responsive b →
  starter = false ∨ conversation_starters b = NoAttribute
  ∨ conversation_starters b = NoneValue →
  ∃ new,
    simulated_dialogue a b turns prefix starter r = Some (Ok (prefix ++ new))
    ∧ length new = Z.to_nat turns ∧ alternating a b new.
Proof.
  intros Ha Hb Hskip.
  assert (simulated_dialogue a b turns prefix starter r
          = respond_loop (Z.to_nat turns) a b turns prefix) as ->.
  { unfold simulated_dialogue, starter_step, get_conversation_starters.
    destruct Hskip as [-> |[Hs|Hs]]; [done|rewrite Hs..]; by destruct starter. }
  by apply respond_loop_turns.
Qed.

Lemma skipped_starter_turns_witness :
  ∃ new,
    simulated_dialogue (constant_agent "A" "hi" NoAttribute)
                       (constant_agent "B" "ho" NoneValue)
                       2 [mkTurn "B" "well"] true 0
    = Some (Ok ([mkTurn "B" "well"] ++ new))
    ∧ length new = Z.to_nat 2
    ∧ alternating (constant_agent "A" "hi" NoAttribute)
                  (constant_agent "B" "ho" NoneValue) new.
Proof.
  apply (skipped_starter_turns (constant_agent "A" "hi" NoAttribute)
           (constant_agent "B" "ho" NoneValue) 2 [mkTurn "B" "well"] true 0).
  - apply constant_agent_responsive.
  - apply constant_agent_responsive.
  - right. by right.
Defined.

End SimulateMore.

(** * A simulated dialogue and its evaluation by the participant *)

Module TrialMore.
Import Dialogue Agents Simulate SimulateSpec SimulateMore.
Import Eval Protocol ProtocolSpec ProtocolFacts.

Section EvaluationAgent.
Variable ask : Character → Dialogue → string → string → result Dialogue.
Variable rating :
  Character → Dialogue → string → string → Z → Z → result Z.
Variable conjunction : gset string → string → string.

(** X22: a dialogue simulated from the empty prefix for one turn or
    less cannot be evaluated by a participant other than the first
    agent: [eval_by_participant] raises [ValueError], since only the
    first agent has spoken.  After two turns or more the participant who
    bears the second agent's name passes that check. *)
Theorem evaluation_needs_two_turns a b turns starter r d participant :
  simulated_dialogue a b turns [] starter r = Some (Ok d) →
  ((turns ≤ 1)%Z → char_name participant ≠ agent_name a →
   eval_by_participant ask rating conjunction participant (agent_name a) d
   = Raise ValueError)
  ∧ ((2 ≤ turns)%Z → char_name participant = agent_name b →
     (∀ p d' asker q, ask p d' asker q ≠ Raise ValueError) →
     eval_by_participant ask rating conjunction participant (agent_name a) d
     ≠ Raise ValueError).
Proof.
  intros (new & -> & _ & Hboth & Honly)%simulation_inv. cbn [app].
  unfold eval_by_participant. split.
  - intros Hturns Hne. rewrite decide_True; [done|].
    intros Hsub. apply Hne.
    assert (char_name participant ∈ speakers_of new) as Hin.
    { apply Hsub, elem_of_union_l. by apply elem_of_singleton. }
    apply (Honly Hturns) in Hin. by apply elem_of_singleton in Hin.
  - intros Hturns Hname Hask. destruct (Hboth Hturns) as [Ha Hb].
    rewrite decide_False.
    + apply bind_not_ValueError; [apply Hask|intros d].
      apply bind_not_ValueError; [apply last_item_not_ValueError|intros t].
      apply bind_not_ValueError; [apply getitem_not_ValueError|intros c].
      apply bind_not_ValueError; [apply try_rating_not_ValueError|intros s].
      apply bind_not_ValueError;
        [apply quality_ratings_not_ValueError|intros s'].
      apply init_default_denoms.
    + intros Hnot. apply Hnot. rewrite Hname.
      intros x [->%elem_of_singleton| ->%elem_of_singleton]%elem_of_union;
        done.
Qed.
End EvaluationAgent.

Lemma evaluation_needs_two_turns_witness :
  eval_by_participant fixed_ask fixed_rating fixed_conjunction
    (mkCharacter "B") "A" [mkTurn "A" "X"] = Raise ValueError.
Proof.
  apply (proj1 (evaluation_needs_two_turns fixed_ask fixed_rating
                  fixed_conjunction
                  (constant_agent "A" "hi" NoAttribute)
                  (constant_agent "B" "ho" (Sequence ["X"])) 1 true 0
                  [mkTurn "A" "X"] (mkCharacter "B") eq_refl)).
  - lia.
  - discriminate.
Defined.

End TrialMore.

(** * Further properties of the knowledge-lookup agents of argubots.py *)

Module ArgubotsMore.
Import Dialogue Argubots ArgubotsSpec ArgubotsFacts.

Lemma random_choice_elem {A} r (seq : list A) x :
  random_choice r seq = Ok x → x ∈ seq.
Proof.
  unfold random_choice. destruct seq as [|y seq]; [done|].
  destruct (_ !! _) as [z|] eqn:Hz; [|done].
  intros [= <-]. by eapply list_elem_of_lookup_2.
Qed.

Lemma chosen_then {A B} (m : result A) (f : A → result B) b :
  m ≫= f = Ok b → ∃ a, m = Ok a ∧ f a = Ok b.
Proof. destruct m as [a|]; [|done]. intros H. by exists a. Qed.

Lemma random_choice_raises {A} r (seq : list A) e :
  random_choice r seq = Raise e → seq = [].
Proof.
  unfold random_choice. destruct seq as [|y seq]; [done|].
  destruct (_ !! _) as [z|] eqn:Hz; [done|].
  apply lookup_ge_None in Hz.
  pose proof (Nat.mod_upper_bound r (length (y :: seq))) as Hlt.
  cbn [length] in *. lia.
Qed.

Section Kialo.
Variable closest_claims : string → nat → string → option Z → list string.
Variable cons : string → list string.
Variable pros : string → list string.
Variable random_chain : nat → list string.

(** X23: on a non-empty dialogue [KialoAgent.response] asks the claims
    service once, for the three claims with counterarguments that are
    closest to the content of the last turn; a reply it returns is a
    counterargument of one of the claims found, and it raises
    [IndexError] only when the chosen claim has no counterargument. *)
Theorem kialo_reply d turn r0 r1 r2 log :
  last d = Some turn →
  let found := closest_claims (content turn) 3 "has_cons" None in
  (KialoAgent_response closest_claims cons random_chain d r0 r1 r2 log).2
  = log ++ [mkQuery (content turn) 3 "has_cons" None]
  ∧ (∀ reply,
       (KialoAgent_response closest_claims cons random_chain d r0 r1 r2 log).1
       = Ok reply →
       ∃ neighbor, neighbor ∈ found ∧ reply ∈ cons neighbor)
  ∧ ((KialoAgent_response closest_claims cons random_chain d r0 r1 r2 log).1
     = Raise IndexError →
     ∃ neighbor, neighbor ∈ found ∧ cons neighbor = []).
Proof.
  intros Hlast found. unfold KialoAgent_response.
  rewrite decide_False by (destruct d; done).
  unfold mbind, service_bind, call_closest_claims, lift, mret, service_ret,
    last_item.
  rewrite Hlast. change (getitem turn "content") with (Ok (content turn)).
  cbn iota. fold found.
  destruct found as [|c found'] eqn:Hfound; [by split_and!|].
  cbn [truthy assert].
  destruct (random_choice r1 (c :: found')) as [neighbor|e] eqn:Hn.
  - apply random_choice_elem in Hn. cbn [fst snd]. split_and!; [done|..].
    + intros reply Hr%random_choice_elem. by exists neighbor.
    + intros Hr%random_choice_raises. by exists neighbor.
  - by apply random_choice_raises in Hn.
Qed.

(** X24: a reply of [AkikiAgent.response] on a non-empty dialogue is an
    argument attached to a claim that one of its queries found: a
    counterargument of that claim, or, only when the claim has no
    counterargument, one of its supporting arguments. *)
Theorem akiki_reply self_name d r0 r1 r2 log reply :
  d ≠ [] →
  (AkikiAgent_response closest_claims cons pros random_chain
     self_name d r0 r1 r2 log).1 = Ok reply →
  ∃ neighbor,
    (neighbor ∈ closest_claims (user_turns_text self_name d) 3 "has_cons"
                  (Some 8%Z)
     ∨ neighbor ∈ closest_claims (bot_turns_text self_name d) 3 "has_pros"
                    (Some 8%Z)
     ∨ neighbor ∈ closest_claims (user_turns_text self_name d) 3 "has_cons"
                    None)
    ∧ (reply ∈ cons neighbor
       ∨ (cons neighbor = [] ∧ reply ∈ pros neighbor)).
Proof.
  intros Hd. rewrite akiki_unfold by done. cbn [fst].
  intros (neighbor & Hn%random_choice_elem & Hr%random_choice_elem)%chosen_then.
  exists neighbor. split.
  - repeat match type of Hn with
           | context [if ?c then _ else _] => destruct c
           end; auto.
  - destruct (cons neighbor); [right|left]; done.
Qed.
End Kialo.

Lemma kialo_reply_witness :
  (KialoAgent_response fallback_claims one_con no_chain
     [mkTurn "Ann" "hi"] 0 0 0 []).2
  = [] ++ [mkQuery "hi" 3 "has_cons" None]
  ∧ (∀ reply,
       (KialoAgent_response fallback_claims one_con no_chain
          [mkTurn "Ann" "hi"] 0 0 0 []).1 = Ok reply →
       ∃ neighbor,
         neighbor ∈ fallback_claims "hi" 3 "has_cons" None
         ∧ reply ∈ one_con neighbor)
  ∧ ((KialoAgent_response fallback_claims one_con no_chain
        [mkTurn "Ann" "hi"] 0 0 0 []).1 = Raise IndexError →
     ∃ neighbor,
       neighbor ∈ fallback_claims "hi" 3 "has_cons" None
       ∧ one_con neighbor = []).
Proof.
  apply (kialo_reply fallback_claims one_con no_chain
           [mkTurn "Ann" "hi"] (mkTurn "Ann" "hi") 0 0 0 []).
  reflexivity.
Defined.

Lemma akiki_reply_witness :
  ∃ neighbor,
    (neighbor ∈ fallback_claims (user_turns_text "Akiki" [mkTurn "Ann" "hi"])
                  3 "has_cons" (Some 8%Z)
     ∨ neighbor ∈ fallback_claims (bot_turns_text "Akiki" [mkTurn "Ann" "hi"])
                    3 "has_pros" (Some 8%Z)
     ∨ neighbor ∈ fallback_claims (user_turns_text "Akiki" [mkTurn "Ann" "hi"])
                    3 "has_cons" None)
    ∧ ("pro" ∈ no_arguments neighbor
       ∨ (no_arguments neighbor = [] ∧ "pro" ∈ one_pro neighbor)).
Proof.
  apply (akiki_reply fallback_claims no_arguments one_pro no_chain
           "Akiki" [mkTurn "Ann" "hi"] 0 0 0 [] "pro").
  - discriminate.
  - reflexivity.
Defined.

End ArgubotsMore.
